(** * Wiener's attack: a shallow embedding of [main.py]

    Python integers are unbounded, so they are modelled by [Z]; [//] and [%]
    are floor division and its remainder, which is what [Z.div] and
    [Z.modulo] compute for a non-zero divisor.  A Python function can return
    a value, raise an exception, or loop: the three cases are the
    constructors of [outcome].  Every [while] loop takes a [fuel] argument
    that bounds the number of times its body runs; the termination theorems
    show how much fuel is enough. *)

From Stdlib Require Import ZArith List Bool Lia Psatz.
From Stdlib Require Import Strings.Byte.
Import ListNotations.

Local Open Scope Z_scope.

(** ** Outcomes of a Python call *)

Inductive exn : Type :=
| AssertionError
| ValueError
| ZeroDivisionError
| IndexError.

Inductive outcome (A : Type) : Type :=
| Ret (a : A)
| Raise (e : exn)
| OutOfFuel.

Arguments Ret {A} a.
Arguments Raise {A} e.
Arguments OutOfFuel {A}.

Definition bind {A B : Type} (m : outcome A) (k : A -> outcome B) : outcome B :=
  match m with
  | Ret a => k a
  | Raise e => Raise e
  | OutOfFuel => OutOfFuel
  end.

Notation "x <- m ;; k" := (bind m (fun x => k))
  (at level 61, m at next level, right associativity).

(** ** Python values returned by [is_perfect_square]

    The function returns either an [int] or the constant [False]; its caller
    reads the result through Python's truth test and through [+]. *)

Inductive pyval : Type :=
| VInt (z : Z)
| VBool (b : bool).

(** [bool(v)] *)
Definition truthy (v : pyval) : bool :=
  match v with
  | VInt z => negb (z =? 0)
  | VBool b => b
  end.

(** the integer a value stands for in arithmetic ([False] is [0], [True] is [1]) *)
Definition int_of (v : pyval) : Z :=
  match v with
  | VInt z => z
  | VBool b => if b then 1 else 0
  end.

(** ** BigIntMath *)

(** the [while x > 0] loop of [get_bit_length] *)
Fixpoint get_bit_length_loop (fuel : nat) (x n : Z) : outcome Z :=
  if x >? 0 then
    match fuel with
    | O => OutOfFuel
    | S fuel' => get_bit_length_loop fuel' (Z.shiftr x 1) (n + 1)
    end
  else Ret n.

Definition get_bit_length (fuel : nat) (x : Z) : outcome Z :=
  if x >=? 0 then get_bit_length_loop fuel x 0
  else Raise AssertionError.

(** the [while True] loop of [get_whole_sqrt] *)
Fixpoint get_whole_sqrt_loop (fuel : nat) (n x : Z) : outcome Z :=
  match fuel with
  | O => OutOfFuel
  | S fuel' =>
      if x =? 0 then Raise ZeroDivisionError
      else
        let y := (x + n / x) / 2 in
        if y >=? x then Ret x
        else get_whole_sqrt_loop fuel' n y
  end.

Definition get_whole_sqrt (fuel : nat) (n : Z) : outcome Z :=
  if n <? 0 then Raise ValueError
  else if n =? 0 then Ret 0
  else
    bl <- get_bit_length fuel n ;;
    let a := bl / 2 in
    let b := bl mod 2 in
    let x := 2 ^ (a + b) in
    get_whole_sqrt_loop fuel n x.

Definition is_perfect_square (fuel : nat) (n : Z) : outcome pyval :=
  let h := Z.land n 15 in
  if h >? 9 then Ret (VBool false)
  else if negb (h =? 2) && negb (h =? 3) && negb (h =? 5)
          && negb (h =? 6) && negb (h =? 7) && negb (h =? 8)
  then
    t <- get_whole_sqrt fuel n ;;
    if t * t =? n then Ret (VInt t) else Ret (VBool false)
  else Ret (VBool false).

(** ** ContinuedFraction *)

(** [num, denom = frac[_] * num + denom, num] *)
Definition contfrac_step (acc : Z * Z) (a : Z) : Z * Z :=
  let (num, denom) := acc in (a * num + denom, num).

(** The loop reads [frac[-2]], [frac[-3]], ..., [frac[-len(frac)]]: the
    elements of the reversed list after its head [frac[-1]]. *)
Definition _contfrac_to_rational (frac : list Z) : Z * Z :=
  match rev frac with
  | [] => (0, 1)
  | last :: earlier => fold_left contfrac_step earlier (last, 1)
  end.

(** [frac[0:i]] for [i] in [range(len(frac))] *)
Definition _convergents_from_contfrac (frac : list Z) : list (Z * Z) :=
  map (fun i => _contfrac_to_rational (firstn i frac)) (seq 0 (length frac)).

(** the [while a * y != x] loop of [_rational_to_contfrac] *)
Fixpoint _rational_to_contfrac_loop (fuel : nat) (x y a : Z)
    (pquotients : list Z) : outcome (list Z) :=
  if a * y =? x then Ret pquotients
  else
    match fuel with
    | O => OutOfFuel
    | S fuel' =>
        let x' := y in
        let y' := x - a * y in
        if y' =? 0 then Raise ZeroDivisionError
        else
          let a' := x' / y' in
          _rational_to_contfrac_loop fuel' x' y' a' (pquotients ++ [a'])
    end.

Definition _rational_to_contfrac (fuel : nat) (x y : Z) : outcome (list Z) :=
  if y =? 0 then Raise ZeroDivisionError
  else
    let a := x / y in
    _rational_to_contfrac_loop fuel x y a [a].

(** ** WienerAttack *)

(** the [for k, d in convergents] loop; falling off its end returns [None] *)
Fixpoint wiener_attack_loop (fuel : nat) (e n : Z) (convergents : list (Z * Z))
    : outcome (option Z) :=
  match convergents with
  | [] => Ret None
  | (k, d) :: rest =>
      if negb (k =? 0) && ((e * d - 1) mod k =? 0) then
        let phi := (e * d - 1) / k in
        let s := n - phi + 1 in
        let discr := s * s - 4 * n in
        if discr >=? 0 then
          t <- is_perfect_square fuel discr ;;
          if truthy t && ((s + int_of t) mod 2 =? 0) then Ret (Some d)
          else wiener_attack_loop fuel e n rest
        else wiener_attack_loop fuel e n rest
      else wiener_attack_loop fuel e n rest
  end.

Definition wiener_attack (fuel : nat) (e n : Z) : outcome (option Z) :=
  frac <- _rational_to_contfrac fuel e n ;;
  let convergents := _convergents_from_contfrac frac in
  wiener_attack_loop fuel e n convergents.

(** ** PKCS1v15Padding *)

(** [pack("B", byte) == b'\x00'] *)
Definition is_zero_byte (b : byte) : bool := Byte.eqb b x00.

(** the [for byte in bytes_array[2:]] loop of the validator *)
Fixpoint has_zero_byte (l : list byte) : bool :=
  match l with
  | [] => false
  | b :: rest => if is_zero_byte b then true else has_zero_byte rest
  end.

Definition is_valid_pkcs_1_5_signature (bytes_array : list byte) : outcome bool :=
  match nth_error bytes_array 0 with
  | None => Raise IndexError
  | Some first_byte =>
      match nth_error bytes_array 1 with
      | None => Raise IndexError
      | Some second_byte =>
          if Byte.eqb first_byte x00 && Byte.eqb second_byte x02
          then Ret (has_zero_byte (skipn 2 bytes_array))
          else Ret false
      end
  end.

(** the [enumerate] loop of the extractor: [byte_pos] counts from [start],
    and the loop leaves [end_byte_pos] untouched when it finds no zero byte *)
Fixpoint find_end_byte_pos (l : list byte) (byte_pos end_byte_pos : nat) : nat :=
  match l with
  | [] => end_byte_pos
  | b :: rest =>
      if is_zero_byte b then byte_pos
      else find_end_byte_pos rest (S byte_pos) end_byte_pos
  end.

Definition extract_message_pkcs_1_5 (bytes_array : list byte) : list byte :=
  let end_byte_pos := find_end_byte_pos (skipn 2 bytes_array) (2 + 1) 0 in
  skipn end_byte_pos bytes_array.

(** * Vocabulary of the properties *)

(** An outcome is settled when the computation did not stop for lack of
    fuel. *)
Definition settled {A : Type} (o : outcome A) : Prop := o <> OutOfFuel.

(** the number of binary digits of a nonnegative integer *)
Definition bits (x : Z) : Z := if x =? 0 then 0 else Z.log2 x + 1.

(** the seed [2 ** (a + b)] of the iteration *)
Definition sqrt_seed (n : Z) : Z := 2 ^ (bits n / 2 + bits n mod 2).

(** the test on the last hexadecimal digit: [h] is not above 9 and is none of
    2, 3, 5, 6, 7, 8 *)
Definition nibble_passes (h : Z) : bool :=
  negb (h >? 9) &&
  (negb (h =? 2) && negb (h =? 3) && negb (h =? 5)
   && negb (h =? 6) && negb (h =? 7) && negb (h =? 8)).

(** the pair (is it a square, root) that a returned value stands for: an
    integer is the root of a square, [False] says there is none *)
Definition as_pair (v : pyval) : bool * Z :=
  match v with
  | VInt t => (true, t)
  | VBool _ => (false, 0)
  end.

(** [frac] evaluates to the fraction [x/y] in lowest terms, with a positive
    denominator *)
Definition evaluates_to (frac : list Z) (x y : Z) : Prop :=
  let (p, q) := _contfrac_to_rational frac in
  p * y = q * x /\ Z.gcd p q = 1 /\ 0 < q.

(** [expands fuel x y]: started on a list that ends with the first quotient of
    [x/y], the loop returns that list followed by the remaining quotients, and
    the quotients of [x/y] evaluate back to [x/y]. *)
Definition expands (fuel : nat) (x y : Z) : Prop :=
  forall pq : list Z,
  exists tail : list Z,
    _rational_to_contfrac_loop fuel x y (x / y) pq = Ret (pq ++ tail) /\
    evaluates_to (x / y :: tail) x y.

(** ** The conditions of the search *)

Section Search.

Variables e n : Z.

(** [s = n - phi + 1] and [discr = s * s - 4 * n] for a convergent [(k, d)] *)
Definition half_sum (c : Z * Z) : Z :=
  let (k, d) := c in n - (e * d - 1) / k + 1.

Definition discriminant (c : Z * Z) : Z :=
  half_sum c * half_sum c - 4 * n.

(** the conditions on a convergent, with [t] the integer square root of the
    discriminant: [k] is not zero and divides [e * d - 1], the discriminant
    is the square of [t], and [s + t] is even *)
Definition valid_convergent (c : Z * Z) : bool :=
  negb (fst c =? 0) && ((e * snd c - 1) mod fst c =? 0)
  && (discriminant c >=? 0)
  && (Z.sqrt (discriminant c) * Z.sqrt (discriminant c) =? discriminant c)
  && ((half_sum c + Z.sqrt (discriminant c)) mod 2 =? 0).

(** what the loop accepts: a valid convergent whose discriminant is not zero *)
Definition accepted_convergent (c : Z * Z) : bool :=
  valid_convergent c && negb (discriminant c =? 0).

(** fuel for the square roots of all the discriminants *)
Definition search_fuel (convs : list (Z * Z)) : nat :=
  list_max (map (fun c => Z.to_nat (Z.log2 (discriminant c)) + 2)%nat convs).

End Search.

(** the position of the first zero byte of a list, if it has one *)
Definition first_zero_at (l : list byte) (i : nat) : Prop :=
  nth_error l i = Some x00 /\
  forall j, (j < i)%nat -> nth_error l j <> Some x00.

(** Euler's totient, by counting *)

(** the number of [j] with [k <= j < k + fuel] and [gcd j n = 1], added to [acc] *)
Fixpoint count_coprime (fuel : nat) (k n acc : Z) : Z :=
  match fuel with
  | O => acc
  | S fuel' =>
      count_coprime fuel' (k + 1) n (if Z.gcd k n =? 1 then acc + 1 else acc)
  end.

Definition totient (n : Z) : Z := count_coprime (Z.to_nat n) 1 n 0.

(** [expands_any fuel x y]: as [expands], for a divisor of either sign; the
    quotients of [x/y] evaluate to a pair [(p, q)] with [p * y = q * x]. *)
Definition expands_any (fuel : nat) (x y : Z) : Prop :=
  forall pq : list Z,
  exists tail : list Z,
    _rational_to_contfrac_loop fuel x y (x / y) pq = Ret (pq ++ tail) /\
    (let (p, q) := _contfrac_to_rational (x / y :: tail) in p * y = q * x).

(** every quotient after the first is at least 1, and the last one at least 2 *)
Definition regular_tail (tail : list Z) : Prop :=
  Forall (fun a => 1 <= a) tail /\ (tail <> [] -> 2 <= last tail 0).

(** * Properties *)

(** ** Fuel

    A settled outcome does not change when more fuel is given. *)

Lemma settled_Ret {A : Type} (a : A) : settled (Ret a).
Proof. discriminate. Qed.

Lemma settled_Raise {A : Type} (e : exn) : settled (@Raise A e).
Proof. discriminate. Qed.

Lemma bind_settled_inv {A B : Type} (m : outcome A) (k : A -> outcome B) :
  settled (bind m k) ->
  settled m /\ (forall a, m = Ret a -> settled (k a)).
Proof.
  unfold settled; destruct m as [a| |]; simpl; intros H; split;
    try congruence; intros a' E; inversion E; subst; exact H.
Qed.

Lemma bind_more_fuel {A B : Type} (m m' : outcome A) (k k' : A -> outcome B) :
  settled (bind m k) ->
  (settled m -> m' = m) ->
  (forall a, m = Ret a -> settled (k a) -> k' a = k a) ->
  bind m' k' = bind m k.
Proof.
  intros H Hm Hk. destruct (bind_settled_inv _ _ H) as [Sm Sk].
  rewrite (Hm Sm). destruct m as [a| |]; simpl; auto.
Qed.

Lemma get_bit_length_loop_more_fuel (f f' : nat) (x n : Z) :
  (f <= f')%nat ->
  settled (get_bit_length_loop f x n) ->
  get_bit_length_loop f' x n = get_bit_length_loop f x n.
Proof.
  revert f' x n. induction f as [|f IH]; intros f' x n Hle H.
  - destruct f'; simpl in *; destruct (x >? 0); auto; now elim H.
  - destruct f' as [|f']; [lia|]. simpl in *.
    destruct (x >? 0); auto. apply IH; [lia | exact H].
Qed.

Lemma get_bit_length_more_fuel (f f' : nat) (x : Z) :
  (f <= f')%nat ->
  settled (get_bit_length f x) ->
  get_bit_length f' x = get_bit_length f x.
Proof.
  unfold get_bit_length. intros Hle H. destruct (x >=? 0); auto.
  now apply get_bit_length_loop_more_fuel.
Qed.

Lemma get_whole_sqrt_loop_more_fuel (f f' : nat) (n x : Z) :
  (f <= f')%nat ->
  settled (get_whole_sqrt_loop f n x) ->
  get_whole_sqrt_loop f' n x = get_whole_sqrt_loop f n x.
Proof.
  revert f' x. induction f as [|f IH]; intros f' x Hle H.
  - now elim H.
  - destruct f' as [|f']; [lia|]. simpl in *.
    destruct (x =? 0); auto.
    destruct ((x + n / x) / 2 >=? x); auto. apply IH; [lia | exact H].
Qed.

Lemma get_whole_sqrt_more_fuel (f f' : nat) (n : Z) :
  (f <= f')%nat ->
  settled (get_whole_sqrt f n) ->
  get_whole_sqrt f' n = get_whole_sqrt f n.
Proof.
  unfold get_whole_sqrt. intros Hle H.
  destruct (n <? 0); auto. destruct (n =? 0); auto.
  apply bind_more_fuel; auto.
  - now apply get_bit_length_more_fuel.
  - intros bl _ S. now apply get_whole_sqrt_loop_more_fuel.
Qed.

Lemma is_perfect_square_more_fuel (f f' : nat) (n : Z) :
  (f <= f')%nat ->
  settled (is_perfect_square f n) ->
  is_perfect_square f' n = is_perfect_square f n.
Proof.
  unfold is_perfect_square. intros Hle H.
  destruct (Z.land n 15 >? 9); auto.
  match goal with |- (if ?c then _ else _) = _ => destruct c end; auto.
  apply bind_more_fuel; auto.
  now apply get_whole_sqrt_more_fuel.
Qed.

Lemma _rational_to_contfrac_loop_more_fuel (f f' : nat) (x y a : Z) (pq : list Z) :
  (f <= f')%nat ->
  settled (_rational_to_contfrac_loop f x y a pq) ->
  _rational_to_contfrac_loop f' x y a pq = _rational_to_contfrac_loop f x y a pq.
Proof.
  revert f' x y a pq. induction f as [|f IH]; intros f' x y a pq Hle H.
  - destruct f'; simpl in *; destruct (a * y =? x); auto; now elim H.
  - destruct f' as [|f']; [lia|]. simpl in *.
    destruct (a * y =? x); auto.
    destruct (x - a * y =? 0); auto. apply IH; [lia | exact H].
Qed.

Lemma _rational_to_contfrac_more_fuel (f f' : nat) (x y : Z) :
  (f <= f')%nat ->
  settled (_rational_to_contfrac f x y) ->
  _rational_to_contfrac f' x y = _rational_to_contfrac f x y.
Proof.
  unfold _rational_to_contfrac. intros Hle H. destruct (y =? 0); auto.
  now apply _rational_to_contfrac_loop_more_fuel.
Qed.

Lemma wiener_attack_loop_more_fuel (f f' : nat) (e n : Z) (convs : list (Z * Z)) :
  (f <= f')%nat ->
  settled (wiener_attack_loop f e n convs) ->
  wiener_attack_loop f' e n convs = wiener_attack_loop f e n convs.
Proof.
  intros Hle. induction convs as [|[k d] rest IH]; intros H; simpl in *; auto.
  destruct (negb (k =? 0) && ((e * d - 1) mod k =? 0)); auto.
  match goal with |- (if ?c then _ else _) = _ => destruct c end; auto.
  apply bind_more_fuel; auto.
  - now apply is_perfect_square_more_fuel.
  - intros t _ S.
    match goal with |- (if ?c then _ else _) = _ => destruct c end; auto.
Qed.

Lemma wiener_attack_more_fuel (f f' : nat) (e n : Z) :
  (f <= f')%nat ->
  settled (wiener_attack f e n) ->
  wiener_attack f' e n = wiener_attack f e n.
Proof.
  unfold wiener_attack. intros Hle H.
  apply bind_more_fuel; auto.
  - now apply _rational_to_contfrac_more_fuel.
  - intros frac _ S. now apply wiener_attack_loop_more_fuel.
Qed.

(** ** Bit length *)

Lemma bits_nonneg (x : Z) : 0 <= bits x.
Proof.
  unfold bits. destruct (x =? 0); [lia|]. pose proof (Z.log2_nonneg x). lia.
Qed.

Lemma bits_shiftr (x : Z) : 0 < x -> bits x = bits (Z.shiftr x 1) + 1.
Proof.
  intros Hx. unfold bits.
  destruct (Z.eqb_spec x 0) as [|_]; [lia|].
  assert (D : Z.shiftr x 1 = x / 2) by (rewrite Z.shiftr_div_pow2 by lia; reflexivity).
  destruct (Z.eqb_spec (Z.shiftr x 1) 0) as [E|E].
  - rewrite D in E.
    assert (x = 1) by (pose proof (Z.div_mod x 2); pose proof (Z.mod_pos_bound x 2); lia).
    subst x. reflexivity.
  - assert (2 <= x).
    { destruct (Z.lt_ge_cases x 2); [|lia].
      rewrite D, Z.div_small in E; lia. }
    rewrite Z.log2_shiftr by lia.
    assert (1 <= Z.log2 x) by (apply Z.log2_le_pow2; simpl; lia).
    lia.
Qed.

Lemma get_bit_length_loop_spec (fuel : nat) (x n : Z) :
  0 <= x -> bits x <= Z.of_nat fuel ->
  get_bit_length_loop fuel x n = Ret (n + bits x).
Proof.
  revert x n. induction fuel as [|fuel IH]; intros x n Hx Hb.
  - simpl. destruct (Z.gtb_spec x 0) as [P|P].
    + unfold bits in Hb. destruct (Z.eqb_spec x 0); [lia|].
      pose proof (Z.log2_nonneg x). lia.
    + assert (x = 0) by lia. subst x. f_equal. unfold bits. simpl. lia.
  - simpl. destruct (Z.gtb_spec x 0) as [P|P].
    + rewrite IH.
      * f_equal. rewrite (bits_shiftr x) by lia. lia.
      * apply Z.shiftr_nonneg. lia.
      * rewrite (bits_shiftr x) in Hb by lia. lia.
    + assert (x = 0) by lia. subst x. f_equal. unfold bits. simpl. lia.
Qed.

Lemma get_bit_length_spec (fuel : nat) (x : Z) :
  0 <= x -> bits x <= Z.of_nat fuel ->
  get_bit_length fuel x = Ret (bits x).
Proof.
  intros Hx Hb. unfold get_bit_length.
  destruct (Z.geb_spec x 0); [|lia].
  now rewrite get_bit_length_loop_spec.
Qed.

(** ** Integer square root

    Newton's iteration stays at or above the root, and its distance to the
    root at least halves with every step. *)

Lemma newton_step_lower (n x r : Z) :
  0 < x -> 0 <= r -> r * r <= n -> r <= (x + n / x) / 2.
Proof.
  intros Hx Hr Hn.
  apply Z.div_le_lower_bound; [lia|].
  assert (2 * r - x <= n / x); [|lia].
  apply Z.div_le_lower_bound; [lia|].
  pose proof (Z.square_nonneg (x - r)). nia.
Qed.

Lemma newton_step_upper (n x r : Z) :
  0 <= r -> r < x -> 0 <= n -> n < (r + 1) * (r + 1) ->
  2 * ((x + n / x) / 2 - r) <= x - r /\ (x + n / x) / 2 < x.
Proof.
  intros Hr Hx Hn0 Hn.
  assert (Q : n / x < r + 1) by (apply Z.div_lt_upper_bound; nia).
  assert (L : (x + n / x) / 2 <= (x + r) / 2) by (apply Z.div_le_mono; lia).
  pose proof (Z.div_mod (x + r) 2). pose proof (Z.mod_pos_bound (x + r) 2).
  lia.
Qed.

Lemma get_whole_sqrt_loop_spec (fuel : nat) (n x r : Z) :
  0 < n -> 0 <= r -> r * r <= n -> n < (r + 1) * (r + 1) ->
  r <= x -> x - r < 2 ^ (Z.of_nat fuel - 1) ->
  get_whole_sqrt_loop fuel n x = Ret r.
Proof.
  intros Hn Hr Hlo Hhi. revert x.
  induction fuel as [|fuel IH]; intros x Hx Hf.
  - simpl in Hf. lia.
  - assert (R : 0 < r) by nia.
    cbn [get_whole_sqrt_loop].
    destruct (Z.eqb_spec x 0); [lia|].
    destruct (Z.eq_dec x r) as [->|N].
    + pose proof (newton_step_lower n r r ltac:(lia) Hr Hlo).
      destruct (Z.geb_spec ((r + n / r) / 2) r); [reflexivity | lia].
    + destruct (newton_step_upper n x r Hr ltac:(lia) ltac:(lia) Hhi) as [U1 U2].
      destruct (Z.geb_spec ((x + n / x) / 2) x); [lia|].
      apply IH.
      * apply newton_step_lower; lia.
      * replace (Z.of_nat (S fuel) - 1) with (Z.of_nat fuel) in Hf by lia.
        destruct fuel as [|fuel]; [simpl in Hf; lia|].
        replace (Z.of_nat (S fuel)) with (Z.succ (Z.of_nat (S fuel) - 1)) in Hf by lia.
        rewrite Z.pow_succ_r in Hf by lia. lia.
Qed.

Lemma sqrt_seed_above (n : Z) : 0 < n -> n < sqrt_seed n * sqrt_seed n.
Proof.
  intros Hn. unfold sqrt_seed, bits.
  destruct (Z.eqb_spec n 0); [lia|].
  pose proof (Z.log2_nonneg n) as L.
  set (b := Z.log2 n + 1).
  assert (Hb : 0 < b) by (unfold b; lia).
  pose proof (Z.div_mod b 2 ltac:(lia)). pose proof (Z.mod_pos_bound b 2 ltac:(lia)).
  assert (0 <= b / 2) by (apply Z.div_pos; lia).
  rewrite <- Z.pow_add_r by lia.
  apply Z.lt_le_trans with (2 ^ b).
  - unfold b. destruct (Z.log2_spec n Hn) as [_ H']. exact H'.
  - apply Z.pow_le_mono_r; lia.
Qed.

Lemma get_whole_sqrt_spec (fuel : nat) (n : Z) :
  0 <= n -> Z.log2 n + 2 <= Z.of_nat fuel ->
  get_whole_sqrt fuel n = Ret (Z.sqrt n).
Proof.
  intros Hn Hf. unfold get_whole_sqrt.
  destruct (Z.ltb_spec n 0); [lia|].
  destruct (Z.eqb_spec n 0) as [->|N]; [reflexivity|].
  assert (B : bits n = Z.log2 n + 1) by (unfold bits; destruct (Z.eqb_spec n 0); lia).
  rewrite get_bit_length_spec by lia. cbn [bind].
  pose proof (Z.sqrt_spec n Hn) as [S1 S2]. pose proof (Z.sqrt_nonneg n) as S0.
  pose proof (sqrt_seed_above n ltac:(lia)) as SA. unfold sqrt_seed in SA.
  set (x0 := 2 ^ (bits n / 2 + bits n mod 2)) in *.
  pose proof (Z.log2_nonneg n) as L.
  pose proof (Z.div_mod (bits n) 2 ltac:(lia)). pose proof (Z.mod_pos_bound (bits n) 2 ltac:(lia)).
  assert (0 <= bits n / 2) by (apply Z.div_pos; lia).
  assert (X0 : 0 < x0) by (apply Z.pow_pos_nonneg; lia).
  apply get_whole_sqrt_loop_spec; try lia.
  - destruct (Z.le_gt_cases (Z.sqrt n) x0); [assumption | nia].
  - assert (0 < Z.sqrt n) by (apply Z.sqrt_pos; lia).
    assert (x0 <= 2 ^ (Z.of_nat fuel - 1)); [|lia].
    apply Z.pow_le_mono_r; lia.
Qed.

(** ** Perfect squares *)

Lemma is_perfect_square_unfold (fuel : nat) (n : Z) :
  is_perfect_square fuel n =
  if nibble_passes (Z.land n 15)
  then t <- get_whole_sqrt fuel n ;;
       if t * t =? n then Ret (VInt t) else Ret (VBool false)
  else Ret (VBool false).
Proof.
  unfold is_perfect_square, nibble_passes.
  destruct (Z.land n 15 >? 9); simpl; [reflexivity|].
  match goal with |- (if ?c then _ else _) = _ => destruct c end; reflexivity.
Qed.

Lemma land_15_mod (n : Z) : Z.land n 15 = n mod 16.
Proof. change 15 with (Z.ones 4). now rewrite Z.land_ones by lia. Qed.

Lemma square_nibble_passes (k : Z) : nibble_passes (Z.land (k * k) 15) = true.
Proof.
  rewrite land_15_mod, Z.mul_mod by lia.
  pose proof (Z.mod_pos_bound k 16 ltac:(lia)) as B.
  set (r := k mod 16) in *.
  assert (C : r = 0 \/ r = 1 \/ r = 2 \/ r = 3 \/ r = 4 \/ r = 5 \/ r = 6 \/ r = 7 \/
              r = 8 \/ r = 9 \/ r = 10 \/ r = 11 \/ r = 12 \/ r = 13 \/ r = 14 \/ r = 15)
    by lia.
  repeat (destruct C as [->|C]; [reflexivity|]). subst r. rewrite C. reflexivity.
Qed.

Lemma is_perfect_square_spec (fuel : nat) (n : Z) :
  0 <= n -> Z.log2 n + 2 <= Z.of_nat fuel ->
  is_perfect_square fuel n =
  Ret (if nibble_passes (Z.land n 15) && (Z.sqrt n * Z.sqrt n =? n)
       then VInt (Z.sqrt n) else VBool false).
Proof.
  intros Hn Hf. rewrite is_perfect_square_unfold.
  destruct (nibble_passes (Z.land n 15)); [|reflexivity].
  rewrite get_whole_sqrt_spec by assumption. cbn [bind andb].
  destruct (Z.sqrt n * Z.sqrt n =? n); reflexivity.
Qed.

Lemma not_square_of_sqrt (n : Z) :
  0 <= n -> Z.sqrt n * Z.sqrt n <> n -> forall t, t * t <> n.
Proof.
  intros Hn Hs t Ht. apply Hs.
  assert (A : Z.abs t * Z.abs t = n) by lia.
  rewrite <- A at 1 2. rewrite Z.sqrt_square by lia. exact A.
Qed.

Lemma is_perfect_square_of_square (fuel : nat) (k : Z) :
  0 <= k -> Z.log2 (k * k) + 2 <= Z.of_nat fuel ->
  is_perfect_square fuel (k * k) = Ret (VInt k).
Proof.
  intros Hk Hf. rewrite is_perfect_square_spec by nia.
  rewrite square_nibble_passes, Z.sqrt_square by assumption.
  now rewrite Z.eqb_refl.
Qed.

Lemma is_perfect_square_of_nonsquare (fuel : nat) (n : Z) :
  0 <= n -> (forall t, t * t <> n) -> Z.log2 n + 2 <= Z.of_nat fuel ->
  is_perfect_square fuel n = Ret (VBool false).
Proof.
  intros Hn Hns Hf. rewrite is_perfect_square_spec by assumption.
  destruct (Z.eqb_spec (Z.sqrt n * Z.sqrt n) n) as [E|E].
  - now elim (Hns (Z.sqrt n)).
  - now rewrite andb_false_r.
Qed.

(** ** Continued fractions *)

Lemma _contfrac_to_rational_single (a : Z) : _contfrac_to_rational [a] = (a, 1).
Proof. reflexivity. Qed.

Lemma _contfrac_to_rational_cons (a : Z) (frac : list Z) :
  frac <> [] ->
  _contfrac_to_rational (a :: frac) =
  let (p, q) := _contfrac_to_rational frac in (a * p + q, p).
Proof.
  intros Hne. unfold _contfrac_to_rational. cbn [rev].
  destruct (rev frac) as [|last earlier] eqn:E.
  - apply (f_equal (@rev Z)) in E. rewrite rev_involutive in E. now elim Hne.
  - cbn [app]. rewrite fold_left_app. cbn [fold_left].
    destruct (fold_left contfrac_step earlier (last, 1)) as [p q]. reflexivity.
Qed.

Lemma evaluates_to_single (x y : Z) :
  (x / y) * y = x -> evaluates_to [x / y] x y.
Proof.
  intros E. unfold evaluates_to. rewrite _contfrac_to_rational_single.
  split; [lia | split; [apply Z.gcd_1_r | lia]].
Qed.

Lemma evaluates_to_cons (a x y : Z) (frac : list Z) :
  frac <> [] -> 0 < y -> 0 < x - a * y ->
  evaluates_to frac y (x - a * y) ->
  evaluates_to (a :: frac) x y.
Proof.
  intros Hne Hy Hr. unfold evaluates_to.
  rewrite _contfrac_to_rational_cons by assumption.
  destruct (_contfrac_to_rational frac) as [p q]. intros [E [G Q]].
  split; [nia|]. split.
  - replace (a * p + q) with (q + a * p) by lia.
    rewrite Z.gcd_comm, Z.gcd_add_mult_diag_r. exact G.
  - nia.
Qed.

(** A fraction in lowest terms with a positive denominator is determined by
    its value. *)
Lemma lowest_terms_unique (p q x y : Z) :
  0 < x -> 0 < y -> 0 < q -> p * y = q * x -> Z.gcd p q = 1 ->
  p = x / Z.gcd x y /\ q = y / Z.gcd x y.
Proof.
  intros Hx Hy Hq E G.
  set (g := Z.gcd x y).
  assert (Hg : 0 < g) by (pose proof (Z.gcd_nonneg x y);
    assert (g <> 0) by (unfold g; intros C; apply Z.gcd_eq_0_l in C; lia); unfold g; lia).
  destruct (Z.gcd_divide_l x y) as [x' Ex]. destruct (Z.gcd_divide_r x y) as [y' Ey].
  fold g in Ex, Ey.
  assert (X' : x / g = x') by (rewrite Ex; apply Z.div_mul; lia).
  assert (Y' : y / g = y') by (rewrite Ey; apply Z.div_mul; lia).
  assert (C : Z.gcd x' y' = 1).
  { rewrite <- X', <- Y'. unfold g. apply Z.gcd_div_gcd; [|reflexivity]. fold g. lia. }
  assert (E' : p * y' = q * x') by nia.
  assert (Py : 0 < y') by nia.
  assert (D1 : (q | y')).
  { apply Z.gauss with p; [exists x'; lia | now rewrite Z.gcd_comm]. }
  assert (D2 : (y' | q)).
  { apply Z.gauss with x'; [exists p; lia | now rewrite Z.gcd_comm]. }
  assert (Q : q = y') by (apply Z.divide_antisym_nonneg; [lia | lia | exact D1 | exact D2]).
  rewrite X', Y'. split; [nia | exact Q].
Qed.

Lemma expands_stop (fuel : nat) (x y : Z) :
  0 < y -> x mod y = 0 -> expands fuel x y.
Proof.
  intros Hy Hm pq. exists [].
  assert (E : x / y * y = x) by (pose proof (Z.div_mod x y); lia).
  split.
  - rewrite app_nil_r.
    destruct fuel; simpl; destruct (Z.eqb_spec (x / y * y) x); congruence.
  - now apply evaluates_to_single.
Qed.

Lemma expands_step (fuel : nat) (x y : Z) :
  0 < y -> x mod y <> 0 -> expands fuel y (x mod y) -> expands (S fuel) x y.
Proof.
  intros Hy Hm IH pq.
  assert (E : x - x / y * y = x mod y) by (rewrite Z.mod_eq; lia).
  destruct (IH (pq ++ [y / (x mod y)])) as [tail [L V]].
  exists (y / (x mod y) :: tail). split.
  - cbn [_rational_to_contfrac_loop].
    destruct (Z.eqb_spec (x / y * y) x); [lia|].
    rewrite E. destruct (Z.eqb_spec (x mod y) 0); [lia|].
    rewrite L. now rewrite <- app_assoc.
  - pose proof (Z.mod_pos_bound x y Hy).
    apply evaluates_to_cons; [discriminate | lia | lia |]. now rewrite E.
Qed.

(** Two iterations at least halve the divisor. *)
Lemma expands_halving (k : nat) :
  forall (fuel : nat) (x y : Z),
    0 < y < 2 ^ Z.of_nat k -> (2 * k <= fuel)%nat -> expands fuel x y.
Proof.
  induction k as [|k IH]; intros fuel x y Hy Hf.
  - simpl in Hy. lia.
  - destruct (Z.eq_dec (x mod y) 0) as [M0|M0]; [apply expands_stop; lia|].
    destruct fuel as [|f1]; [lia|]. apply expands_step; [lia|assumption|].
    pose proof (Z.mod_pos_bound x y ltac:(lia)) as B1.
    set (y1 := x mod y) in *.
    destruct (Z.eq_dec (y mod y1) 0) as [M1|M1]; [apply expands_stop; lia|].
    destruct f1 as [|f2]; [lia|]. apply expands_step; [lia|assumption|].
    pose proof (Z.mod_pos_bound y y1 ltac:(lia)) as B2.
    apply IH; [|lia].
    rewrite Nat2Z.inj_succ, Z.pow_succ_r in Hy by lia.
    pose proof (Z.div_mod y y1 ltac:(lia)) as D.
    assert (1 <= y / y1) by (apply Z.div_le_lower_bound; lia).
    nia.
Qed.

Lemma log2_lt_pow2 (x : Z) : 0 < x -> x < 2 ^ Z.of_nat (Z.to_nat (Z.log2 x) + 1).
Proof.
  intros Hx. pose proof (Z.log2_nonneg x).
  replace (Z.of_nat (Z.to_nat (Z.log2 x) + 1)) with (Z.succ (Z.log2 x)) by lia.
  now apply Z.log2_spec.
Qed.

Lemma _rational_to_contfrac_spec (fuel : nat) (x y : Z) :
  0 <= x -> 0 < y ->
  2 * Z.log2 (Z.min x y) + 3 <= Z.of_nat fuel ->
  exists frac : list Z,
    _rational_to_contfrac fuel x y = Ret frac /\
    frac <> [] /\ evaluates_to frac x y.
Proof.
  intros Hx Hy Hf.
  assert (X : expands fuel x y).
  { destruct (Z.lt_ge_cases x y) as [Lt|Ge].
    - rewrite Z.min_l in Hf by lia.
      destruct (Z.eq_dec x 0) as [->|Nz]; [now apply expands_stop|].
      pose proof (Z.log2_nonneg x).
      destruct fuel as [|f]; [lia|].
      apply expands_step; [lia | rewrite Z.mod_small; lia |].
      rewrite Z.mod_small by lia.
      apply (expands_halving (Z.to_nat (Z.log2 x) + 1)); [|lia].
      split; [lia | apply log2_lt_pow2; lia].
    - rewrite Z.min_r in Hf by lia. pose proof (Z.log2_nonneg y).
      apply (expands_halving (Z.to_nat (Z.log2 y) + 1)); [|lia].
      split; [lia | apply log2_lt_pow2; lia]. }
  destruct (X [x / y]) as [tail [L V]].
  exists (x / y :: tail). unfold _rational_to_contfrac.
  destruct (Z.eqb_spec y 0); [lia|].
  rewrite L. split; [reflexivity|]. split; [discriminate | exact V].
Qed.

(** ** The search over the convergents *)

Lemma wiener_attack_loop_spec (fuel : nat) (e n : Z) (convs : list (Z * Z)) :
  (search_fuel e n convs <= fuel)%nat ->
  wiener_attack_loop fuel e n convs =
  Ret (option_map snd (find (accepted_convergent e n) convs)).
Proof.
  induction convs as [|[k d] rest IH]; intros Hf; [reflexivity|].
  unfold search_fuel in Hf. cbn [map] in Hf.
  change (list_max (?a :: ?l)) with (Nat.max a (list_max l)) in Hf.
  fold (search_fuel e n rest) in Hf.
  specialize (IH ltac:(lia)).
  cbn [wiener_attack_loop find].
  unfold accepted_convergent at 1, valid_convergent.
  change (fst (k, d)) with k. change (snd (k, d)) with d.
  fold (half_sum e n (k, d)). fold (discriminant e n (k, d)).
  set (s := half_sum e n (k, d)) in *. set (discr := discriminant e n (k, d)) in *.
  destruct (negb (k =? 0) && ((e * d - 1) mod k =? 0)); [|exact IH].
  cbn [andb].
  destruct (Z.geb_spec discr 0) as [P|P]; [|exact IH].
  cbn [andb].
  assert (F : Z.log2 discr + 2 <= Z.of_nat fuel)
    by (pose proof (Z.log2_nonneg discr); fold discr in Hf; lia).
  rewrite is_perfect_square_spec by lia.
  cbn [bind].
  destruct (Z.eqb_spec (Z.sqrt discr * Z.sqrt discr) discr) as [Q|Q].
  - assert (NP : nibble_passes (Z.land discr 15) = true)
      by (rewrite <- Q; apply square_nibble_passes).
    rewrite NP. cbn [andb truthy int_of].
    assert (Zr : (Z.sqrt discr =? 0) = (discr =? 0)).
    { destruct (Z.eqb_spec (Z.sqrt discr) 0) as [A|A], (Z.eqb_spec discr 0) as [B|B];
        try reflexivity.
      - rewrite A in Q. simpl in Q. congruence.
      - rewrite B in A. now elim A. }
    rewrite Zr.
    destruct ((s + Z.sqrt discr) mod 2 =? 0), (discr =? 0); cbn [andb negb option_map snd];
      try reflexivity; exact IH.
  - rewrite andb_false_r. cbn [truthy andb]. exact IH.
Qed.

Lemma wiener_attack_spec (e n : Z) :
  0 <= e -> 0 < n ->
  exists (frac : list Z) (bound : nat),
    forall fuel : nat, (bound <= fuel)%nat ->
      _rational_to_contfrac fuel e n = Ret frac /\
      wiener_attack fuel e n =
      Ret (option_map snd
             (find (accepted_convergent e n) (_convergents_from_contfrac frac))).
Proof.
  intros He Hn.
  set (b1 := Z.to_nat (2 * Z.log2 (Z.min e n) + 3)).
  destruct (_rational_to_contfrac_spec b1 e n He Hn) as [frac [R _]].
  { unfold b1. pose proof (Z.log2_nonneg (Z.min e n)). lia. }
  exists frac, (Nat.max b1 (search_fuel e n (_convergents_from_contfrac frac))).
  intros fuel Hf.
  assert (R' : _rational_to_contfrac fuel e n = Ret frac).
  { rewrite <- R. apply _rational_to_contfrac_more_fuel; [lia|].
    rewrite R. apply settled_Ret. }
  split; [exact R'|].
  unfold wiener_attack. rewrite R'. cbn [bind].
  apply wiener_attack_loop_spec. lia.
Qed.

(** ** Convergents *)

Lemma _convergents_from_contfrac_length (frac : list Z) :
  length (_convergents_from_contfrac frac) = length frac.
Proof.
  unfold _convergents_from_contfrac. now rewrite length_map, length_seq.
Qed.

Lemma _convergents_from_contfrac_nth (frac : list Z) (i : nat) :
  (i < length frac)%nat ->
  nth_error (_convergents_from_contfrac frac) i =
  Some (_contfrac_to_rational (firstn i frac)).
Proof.
  intros Hi. unfold _convergents_from_contfrac.
  rewrite nth_error_map, nth_error_seq.
  destruct (Nat.ltb_spec i (length frac)); [reflexivity | lia].
Qed.

(** ** Padding *)

Lemma is_zero_byte_true (b : byte) : is_zero_byte b = true <-> b = x00.
Proof.
  unfold is_zero_byte. split; [apply byte_dec_bl | apply byte_dec_lb].
Qed.

Lemma is_zero_byte_false (b : byte) : is_zero_byte b = false <-> b <> x00.
Proof.
  rewrite <- is_zero_byte_true. destruct (is_zero_byte b); split; congruence.
Qed.

Lemma has_zero_byte_true (l : list byte) :
  has_zero_byte l = true <-> exists i, nth_error l i = Some x00.
Proof.
  induction l as [|b rest IH]; simpl.
  - split; [discriminate | intros [[|i] H]; discriminate].
  - destruct (is_zero_byte b) eqn:Z0.
    + apply is_zero_byte_true in Z0. subst b.
      split; [intros _; now exists 0%nat | reflexivity].
    + apply is_zero_byte_false in Z0. rewrite IH. split.
      * intros [i H]. now exists (S i).
      * intros [[|i] H]; simpl in H; [congruence | now exists i].
Qed.

Lemma find_end_byte_pos_found (l : list byte) (i byte_pos end_byte_pos : nat) :
  first_zero_at l i ->
  find_end_byte_pos l byte_pos end_byte_pos = (byte_pos + i)%nat.
Proof.
  revert i byte_pos. induction l as [|b rest IH]; intros i p [Hi Hj].
  - destruct i; discriminate.
  - simpl. destruct i as [|i].
    + simpl in Hi. injection Hi as ->. simpl. lia.
    + destruct (is_zero_byte b) eqn:Z0.
      * apply is_zero_byte_true in Z0. subst b.
        now elim (Hj 0%nat ltac:(lia)).
      * rewrite (IH i (S p)); [lia|]. split; [exact Hi|].
        intros j Lt. apply (Hj (S j)). lia.
Qed.

Lemma find_end_byte_pos_none (l : list byte) (byte_pos end_byte_pos : nat) :
  (forall i, nth_error l i <> Some x00) ->
  find_end_byte_pos l byte_pos end_byte_pos = end_byte_pos.
Proof.
  revert byte_pos. induction l as [|b rest IH]; intros p H; [reflexivity|].
  simpl. destruct (is_zero_byte b) eqn:Z0.
  - apply is_zero_byte_true in Z0. subst b. now elim (H 0%nat).
  - apply IH. intros i. apply (H (S i)).
Qed.

Lemma has_zero_byte_first (l : list byte) :
  has_zero_byte l = true -> exists i, first_zero_at l i.
Proof.
  induction l as [|b rest IH]; simpl; [discriminate|].
  destruct (is_zero_byte b) eqn:Z0.
  - intros _. apply is_zero_byte_true in Z0. subst b. exists 0%nat.
    split; [reflexivity | intros j Lt; lia].
  - intros H. destruct (IH H) as [i [Hi Hj]]. exists (S i). split; [exact Hi|].
    intros [|j] Lt; simpl.
    + apply is_zero_byte_false in Z0. congruence.
    + apply Hj. lia.
Qed.

Lemma first_zero_at_bound (l : list byte) (i : nat) :
  first_zero_at l i -> (i < length l)%nat.
Proof.
  intros [Hi _]. apply nth_error_Some. congruence.
Qed.

(** ** Results obtained with some fuel stay with more *)

Lemma _rational_to_contfrac_fuel_add (f k : nat) (x y : Z) (frac : list Z) :
  _rational_to_contfrac f x y = Ret frac ->
  _rational_to_contfrac (f + k) x y = Ret frac.
Proof.
  intros H. rewrite <- H. apply _rational_to_contfrac_more_fuel; [lia|].
  rewrite H. apply settled_Ret.
Qed.

Lemma wiener_attack_fuel_add (f k : nat) (e n : Z) (r : option Z) :
  wiener_attack f e n = Ret r ->
  wiener_attack (f + k) e n = Ret r.
Proof.
  intros H. rewrite <- H. apply wiener_attack_more_fuel; [lia|].
  rewrite H. apply settled_Ret.
Qed.

(** * Main results *)

(** C1.  The search accepts a convergent only when the value returned by
    [is_perfect_square] is truthy, so a convergent whose discriminant is the
    perfect square [0] is passed over.  For [e = 5], [n = 9] the quotients are
    [0; 1; 1; 4] and the convergents tried are [(0,1); (0,1); (1,1); (1,2)].
    The first convergent meeting every stated condition is [(1, 1)]: [k] is
    not zero and divides [e * d - 1 = 4], [s = 6], the discriminant is [0],
    a perfect square with root [0], and [s + 0] is even.  The search
    nevertheless returns [None] instead of [d = 1]. *)
Theorem wiener_attack_skips_zero_discriminant (fuel : nat) :
  _rational_to_contfrac (10 + fuel) 5 9 = Ret [0; 1; 1; 4] /\
  _convergents_from_contfrac [0; 1; 1; 4] = [(0, 1); (0, 1); (1, 1); (1, 2)] /\
  find (valid_convergent 5 9) [(0, 1); (0, 1); (1, 1); (1, 2)] = Some (1, 1) /\
  half_sum 5 9 (1, 1) = 6 /\
  discriminant 5 9 (1, 1) = 0 /\
  wiener_attack (10 + fuel) 5 9 = Ret None.
Proof.
  split; [apply _rational_to_contfrac_fuel_add; reflexivity|].
  split; [reflexivity|]. split; [reflexivity|].
  split; [reflexivity|]. split; [reflexivity|].
  apply wiener_attack_fuel_add. reflexivity.
Qed.

(** C2.  On the toy key [e = 17993], [n = 90581 = 239 * 379] the attack
    returns [d = 5], a denominator of a convergent of [17993/90581], and
    [17993 * 5] is [1] modulo [phi(90581) = 89964]. *)
Theorem wiener_attack_toy_key (fuel : nat) :
  wiener_attack (20 + fuel) 17993 90581 = Ret (Some 5) /\
  _rational_to_contfrac (20 + fuel) 17993 90581 = Ret [0; 5; 29; 4; 1; 3; 2; 4; 3] /\
  nth_error (_convergents_from_contfrac [0; 5; 29; 4; 1; 3; 2; 4; 3]) 2 = Some (1, 5) /\
  90581 = 239 * 379 /\
  totient 90581 = 89964 /\
  (17993 * 5) mod totient 90581 = 1.
Proof.
  assert (T : totient 90581 = 89964) by (vm_compute; reflexivity).
  rewrite T.
  split; [apply wiener_attack_fuel_add; vm_compute; reflexivity|].
  split; [apply _rational_to_contfrac_fuel_add; vm_compute; reflexivity|].
  split; [vm_compute; reflexivity|].
  split; [reflexivity|]. split; reflexivity.
Qed.

(** C3.  For every nonnegative [x], [get_whole_sqrt x] returns the integer
    [r] with [r * r <= x < (r + 1) * (r + 1)]; the loops need at most
    [log2 x + 2] units of fuel.  In particular [get_whole_sqrt 0] is [0]. *)
Theorem get_whole_sqrt_floor_sqrt (fuel : nat) (x : Z) :
  0 <= x -> Z.log2 x + 2 <= Z.of_nat fuel ->
  exists r : Z,
    get_whole_sqrt fuel x = Ret r /\
    r * r <= x < (r + 1) * (r + 1) /\
    get_whole_sqrt fuel 0 = Ret 0.
Proof.
  intros Hx Hf. exists (Z.sqrt x).
  split; [now apply get_whole_sqrt_spec|].
  split; [|reflexivity].
  destruct (Z.sqrt_spec x Hx) as [S1 S2]. lia.
Qed.

Lemma get_whole_sqrt_floor_sqrt_witness :
  exists r : Z,
    get_whole_sqrt 200 340282366920938463463374607431768223801 = Ret r /\
    r * r <= 340282366920938463463374607431768223801 < (r + 1) * (r + 1) /\
    get_whole_sqrt 200 0 = Ret 0.
Proof.
  apply get_whole_sqrt_floor_sqrt; [lia | vm_compute; discriminate].
Defined.

(** C4.  For every [k >= 0], [is_perfect_square (k * k)] returns the integer
    [k], that is (true, [k]); for every [n >= 0] that is not a perfect square
    it returns [False], that is (false, 0), whether the filter on the last
    hexadecimal digit or the comparison [t * t == n] turns it down. *)
Theorem is_perfect_square_reports (fuel : nat) (k n : Z) :
  0 <= k -> Z.log2 (k * k) + 2 <= Z.of_nat fuel ->
  0 <= n -> (forall t, t * t <> n) -> Z.log2 n + 2 <= Z.of_nat fuel ->
  is_perfect_square fuel (k * k) = Ret (VInt k) /\
  as_pair (VInt k) = (true, k) /\
  is_perfect_square fuel n = Ret (VBool false) /\
  as_pair (VBool false) = (false, 0).
Proof.
  intros Hk Fk Hn Ns Fn.
  split; [now apply is_perfect_square_of_square|].
  split; [reflexivity|].
  split; [now apply is_perfect_square_of_nonsquare | reflexivity].
Qed.

Lemma is_perfect_square_reports_witness :
  is_perfect_square 10 (0 * 0) = Ret (VInt 0) /\
  as_pair (VInt 0) = (true, 0) /\
  is_perfect_square 10 17 = Ret (VBool false) /\
  as_pair (VBool false) = (false, 0).
Proof.
  apply is_perfect_square_reports.
  - lia.
  - simpl. lia.
  - lia.
  - apply not_square_of_sqrt; [lia | vm_compute; discriminate].
  - simpl. lia.
Defined.

(** C5.  Round trip: for positive [x] and [y], the quotients returned by
    [_rational_to_contfrac x y] are evaluated by [_contfrac_to_rational] to a
    pair [(p, q)] with [p * y = q * x] and [gcd p q = 1]; it is [x/y] in
    lowest terms. *)
Theorem contfrac_round_trip (fuel : nat) (x y : Z) :
  0 < x -> 0 < y -> 2 * Z.log2 (Z.min x y) + 3 <= Z.of_nat fuel ->
  exists (frac : list Z) (p q : Z),
    _rational_to_contfrac fuel x y = Ret frac /\
    _contfrac_to_rational frac = (p, q) /\
    p * y = q * x /\ Z.gcd p q = 1 /\
    p = x / Z.gcd x y /\ q = y / Z.gcd x y.
Proof.
  intros Hx Hy Hf.
  destruct (_rational_to_contfrac_spec fuel x y ltac:(lia) Hy Hf) as [frac [R [_ V]]].
  unfold evaluates_to in V.
  destruct (_contfrac_to_rational frac) as [p q] eqn:E. destruct V as [V1 [V2 V3]].
  exists frac, p, q. repeat split; try assumption;
    now apply (lowest_terms_unique p q x y).
Qed.

Lemma contfrac_round_trip_witness :
  exists (frac : list Z) (p q : Z),
    _rational_to_contfrac 20 34 12 = Ret frac /\
    _contfrac_to_rational frac = (p, q) /\
    p * 12 = q * 34 /\ Z.gcd p q = 1 /\
    p = 34 / Z.gcd 34 12 /\ q = 12 / Z.gcd 34 12.
Proof.
  apply contfrac_round_trip; [lia | lia | vm_compute; discriminate].
Defined.

(** C6.  [_convergents_from_contfrac frac] has one entry for each prefix
    length [i] from [0] to [length frac - 1], the value of [frac[0:i]]: it has
    [length frac] entries and none for the full sequence.  The empty prefix
    yields [(0, 1)]. *)
Theorem convergents_from_contfrac_prefixes (frac : list Z) (i : nat) :
  (i < length frac)%nat ->
  length (_convergents_from_contfrac frac) = length frac /\
  nth_error (_convergents_from_contfrac frac) i =
    Some (_contfrac_to_rational (firstn i frac)) /\
  nth_error (_convergents_from_contfrac frac) (length frac) = None /\
  _contfrac_to_rational (firstn 0 frac) = (0, 1).
Proof.
  intros Hi.
  split; [apply _convergents_from_contfrac_length|].
  split; [now apply _convergents_from_contfrac_nth|].
  split; [|reflexivity].
  apply nth_error_None. rewrite _convergents_from_contfrac_length. lia.
Qed.

Lemma convergents_from_contfrac_prefixes_witness :
  length (_convergents_from_contfrac [0; 1; 1; 4]) = length [0; 1; 1; 4] /\
  nth_error (_convergents_from_contfrac [0; 1; 1; 4]) 3 =
    Some (_contfrac_to_rational (firstn 3 [0; 1; 1; 4])) /\
  nth_error (_convergents_from_contfrac [0; 1; 1; 4]) (length [0; 1; 1; 4]) = None /\
  _contfrac_to_rational (firstn 0 [0; 1; 1; 4]) = (0, 1).
Proof.
  apply convergents_from_contfrac_prefixes. simpl. lia.
Defined.

(** C6.  The list does not run up to the prefix length [length frac]
    inclusive: on [[1]] there is one entry, not two, and no entry for the
    prefix of length 1. *)
Lemma convergents_from_contfrac_not_inclusive :
  ~ (length (_convergents_from_contfrac [1]) = (length [1] + 1)%nat /\
     nth_error (_convergents_from_contfrac [1]) (length [1]) =
       Some (_contfrac_to_rational (firstn (length [1]) [1]))).
Proof.
  intros [H _]. vm_compute in H. discriminate.
Qed.

(** C7.  For a block of at least two bytes, the validator returns [true]
    exactly when byte 0 is [0x00], byte 1 is [0x02] and some byte at an index
    [>= 2] is [0x00]; on [[0x00; 0x02; 0x05; 0x06]] it returns [false]. *)
Theorem is_valid_pkcs_1_5_signature_iff (block : list byte) :
  (2 <= length block)%nat ->
  exists b : bool,
    is_valid_pkcs_1_5_signature block = Ret b /\
    (b = true <->
     nth_error block 0 = Some x00 /\ nth_error block 1 = Some x02 /\
     exists i, (2 <= i)%nat /\ nth_error block i = Some x00) /\
    is_valid_pkcs_1_5_signature [x00; x02; x05; x06] = Ret false.
Proof.
  intros Hlen. destruct block as [|b0 [|b1 rest]]; simpl in Hlen; try lia.
  unfold is_valid_pkcs_1_5_signature. cbn [nth_error skipn].
  destruct (Byte.eqb b0 x00) eqn:E0; [destruct (Byte.eqb b1 x02) eqn:E1|]; cbn [andb].
  - apply byte_dec_bl in E0, E1. subst b0 b1.
    exists (has_zero_byte rest). split; [reflexivity|]. split; [|reflexivity].
    rewrite has_zero_byte_true. split.
    + intros [i H]. repeat split. exists (S (S i)). split; [lia | exact H].
    + intros [_ [_ [i [Hi H]]]].
      destruct i as [|[|i]]; try lia. now exists i.
  - exists false. split; [reflexivity|]. split; [|reflexivity]. split; [discriminate|].
    intros [_ [H _]]. injection H as ->. discriminate.
  - exists false. split; [reflexivity|]. split; [|reflexivity]. split; [discriminate|].
    intros [H _]. injection H as ->. discriminate.
Qed.

Lemma is_valid_pkcs_1_5_signature_iff_witness :
  exists b : bool,
    is_valid_pkcs_1_5_signature [x00; x02; x05; x00; x41; x42] = Ret b /\
    (b = true <->
     nth_error [x00; x02; x05; x00; x41; x42] 0 = Some x00 /\
     nth_error [x00; x02; x05; x00; x41; x42] 1 = Some x02 /\
     exists i, (2 <= i)%nat /\
               nth_error [x00; x02; x05; x00; x41; x42] i = Some x00) /\
    is_valid_pkcs_1_5_signature [x00; x02; x05; x06] = Ret false.
Proof.
  apply is_valid_pkcs_1_5_signature_iff. simpl. lia.
Defined.

(** C8.  If [i >= 2] is the smallest index from 2 on that holds a zero byte,
    the extractor returns the bytes strictly after index [i]; if no index
    from 2 on holds a zero byte it returns its input unchanged.  On
    [[0x00; 0x02; 0x05; 0x00; 0x41; 0x42]] it returns [[0x41; 0x42]]. *)
Theorem extract_message_pkcs_1_5_spec (block : list byte) :
  (forall i : nat,
     (2 <= i)%nat -> nth_error block i = Some x00 ->
     (forall j, (2 <= j < i)%nat -> nth_error block j <> Some x00) ->
     extract_message_pkcs_1_5 block = skipn (S i) block) /\
  ((forall i : nat, (2 <= i)%nat -> nth_error block i <> Some x00) ->
   extract_message_pkcs_1_5 block = block) /\
  extract_message_pkcs_1_5 [x00; x02; x05; x00; x41; x42] = [x41; x42].
Proof.
  split; [|split; [|reflexivity]].
  - intros i Hi Hz Hmin. unfold extract_message_pkcs_1_5.
    rewrite (find_end_byte_pos_found _ (i - 2)).
    + f_equal. lia.
    + split.
      * rewrite nth_error_skipn. now replace (2 + (i - 2))%nat with i by lia.
      * intros j Hj. rewrite nth_error_skipn. apply Hmin. lia.
  - intros Hnone. unfold extract_message_pkcs_1_5.
    rewrite find_end_byte_pos_none; [reflexivity|].
    intros i. rewrite nth_error_skipn. apply Hnone. lia.
Qed.

Lemma extract_message_pkcs_1_5_spec_witness :
  extract_message_pkcs_1_5 [x00; x02; x05; x00; x41; x42] =
  skipn 4 [x00; x02; x05; x00; x41; x42] /\
  extract_message_pkcs_1_5 [x00; x02; x05; x06] = [x00; x02; x05; x06].
Proof.
  split.
  - apply (proj1 (extract_message_pkcs_1_5_spec [x00; x02; x05; x00; x41; x42]) 3%nat).
    + lia.
    + reflexivity.
    + intros j Hj. assert (j = 2%nat) as -> by lia. simpl. discriminate.
  - apply (proj1 (proj2 (extract_message_pkcs_1_5_spec [x00; x02; x05; x06]))).
    intros i Hi. destruct i as [|[|[|[|i]]]]; simpl; try lia; try discriminate.
    destruct i; discriminate.
Defined.

(** C9.  The loops terminate: Newton's iteration of [get_whole_sqrt] for every
    nonnegative [n], within [log2 n + 2] rounds; the Euclidean loop of
    [_rational_to_contfrac] for every nonnegative [x] and positive [y], within
    [2 * log2 (min x y) + 3] rounds; hence [wiener_attack e m] returns, without
    raising, for nonnegative [e] and positive [m]. *)
Theorem core_loops_terminate (n x y e m : Z) :
  0 <= n -> 0 <= x -> 0 < y -> 0 <= e -> 0 < m ->
  (exists r : Z, forall fuel : nat,
      Z.log2 n + 2 <= Z.of_nat fuel -> get_whole_sqrt fuel n = Ret r) /\
  (exists frac : list Z, forall fuel : nat,
      2 * Z.log2 (Z.min x y) + 3 <= Z.of_nat fuel ->
      _rational_to_contfrac fuel x y = Ret frac) /\
  (exists (bound : nat) (res : option Z), forall fuel : nat,
      (bound <= fuel)%nat -> wiener_attack fuel e m = Ret res).
Proof.
  intros Hn Hx Hy He Hm. split; [|split].
  - exists (Z.sqrt n). intros fuel Hf. now apply get_whole_sqrt_spec.
  - pose proof (Z.log2_nonneg (Z.min x y)) as L.
    set (b := Z.to_nat (2 * Z.log2 (Z.min x y) + 3)).
    destruct (_rational_to_contfrac_spec b x y Hx Hy) as [frac [R _]];
      [unfold b; lia|].
    exists frac. intros fuel Hf. rewrite <- R.
    apply _rational_to_contfrac_more_fuel; [unfold b; lia|].
    rewrite R. apply settled_Ret.
  - destruct (wiener_attack_spec e m He Hm) as [frac [bound H]].
    exists bound. eexists. intros fuel Hf. exact (proj2 (H fuel Hf)).
Qed.

Lemma core_loops_terminate_witness :
  (exists r : Z, forall fuel : nat,
      Z.log2 1000 + 2 <= Z.of_nat fuel -> get_whole_sqrt fuel 1000 = Ret r) /\
  (exists frac : list Z, forall fuel : nat,
      2 * Z.log2 (Z.min 34 12) + 3 <= Z.of_nat fuel ->
      _rational_to_contfrac fuel 34 12 = Ret frac) /\
  (exists (bound : nat) (res : option Z), forall fuel : nat,
      (bound <= fuel)%nat -> wiener_attack fuel 17993 90581 = Ret res).
Proof.
  apply (core_loops_terminate 1000 34 12 17993 90581); lia.
Defined.

(** C10.  On a block of at least two bytes that the validator accepts, the
    extractor finds its separator: the end position is some [j >= 3] within
    the block, the result is the suffix from [j], and it is at least three
    bytes shorter than the block. *)
Theorem validated_block_proper_suffix (block : list byte) :
  (2 <= length block)%nat ->
  is_valid_pkcs_1_5_signature block = Ret true ->
  exists j : nat,
    (3 <= j <= length block)%nat /\
    find_end_byte_pos (skipn 2 block) (2 + 1) 0 = j /\
    extract_message_pkcs_1_5 block = skipn j block /\
    (length (extract_message_pkcs_1_5 block) + 3 <= length block)%nat.
Proof.
  intros Hlen Hv. destruct block as [|b0 [|b1 rest]]; simpl in Hlen; try lia.
  unfold is_valid_pkcs_1_5_signature in Hv. cbn [nth_error skipn] in Hv.
  destruct (Byte.eqb b0 x00 && Byte.eqb b1 x02); [|discriminate].
  injection Hv as Hz.
  destruct (has_zero_byte_first rest Hz) as [i Fi].
  pose proof (first_zero_at_bound rest i Fi) as Bi.
  assert (E : find_end_byte_pos (skipn 2 (b0 :: b1 :: rest)) (2 + 1) 0 = (3 + i)%nat)
    by (cbn [skipn]; now apply find_end_byte_pos_found).
  exists (3 + i)%nat. unfold extract_message_pkcs_1_5. rewrite E.
  split; [cbn [length]; lia|]. split; [reflexivity|]. split; [reflexivity|].
  rewrite length_skipn. cbn [length]. lia.
Qed.

Lemma validated_block_proper_suffix_witness :
  exists j : nat,
    (3 <= j <= length [x00; x02; x05; x00; x41; x42])%nat /\
    find_end_byte_pos (skipn 2 [x00; x02; x05; x00; x41; x42]) (2 + 1) 0 = j /\
    extract_message_pkcs_1_5 [x00; x02; x05; x00; x41; x42] =
    skipn j [x00; x02; x05; x00; x41; x42] /\
    (length (extract_message_pkcs_1_5 [x00; x02; x05; x00; x41; x42]) + 3 <=
     length [x00; x02; x05; x00; x41; x42])%nat.
Proof.
  apply validated_block_proper_suffix; [simpl; lia | reflexivity].
Defined.

(** * Further properties of the code *)

(** ** Bit length and square root *)

Lemma get_whole_sqrt_sound (fuel : nat) (n t : Z) :
  0 <= n -> get_whole_sqrt fuel n = Ret t -> t = Z.sqrt n.
Proof.
  intros Hn H. pose proof (Z.log2_nonneg n) as L.
  set (f' := Nat.max fuel (Z.to_nat (Z.log2 n + 2))).
  assert (E : get_whole_sqrt f' n = get_whole_sqrt fuel n).
  { apply get_whole_sqrt_more_fuel; [unfold f'; lia|]. rewrite H. apply settled_Ret. }
  rewrite get_whole_sqrt_spec in E by (unfold f'; lia). congruence.
Qed.

(** X1.  For [x >= 0], [get_bit_length x] returns the number [b] of binary
    digits of [x]: [b] is [0] exactly for [x = 0], and otherwise
    [2 ^ (b - 1) <= x < 2 ^ b].  The loop runs [b] times. *)
Theorem get_bit_length_correct (fuel : nat) (x : Z) :
  0 <= x -> Z.log2 x + 1 <= Z.of_nat fuel ->
  exists b : Z,
    get_bit_length fuel x = Ret b /\
    (b = 0 <-> x = 0) /\
    (0 < x -> 2 ^ (b - 1) <= x < 2 ^ b).
Proof.
  intros Hx Hf. pose proof (Z.log2_nonneg x) as L.
  exists (bits x). split.
  - apply get_bit_length_spec; [assumption|].
    unfold bits. destruct (x =? 0); lia.
  - unfold bits. destruct (Z.eqb_spec x 0) as [->|N].
    + split; [split; reflexivity | lia].
    + split; [split; lia|]. intros P.
      replace (Z.log2 x + 1 - 1) with (Z.log2 x) by lia.
      destruct (Z.log2_spec x P) as [A B]. split; [exact A|].
      now replace (Z.log2 x + 1) with (Z.succ (Z.log2 x)) by lia.
Qed.

Lemma get_bit_length_correct_witness :
  exists b : Z,
    get_bit_length 10 1000 = Ret b /\
    (b = 0 <-> 1000 = 0) /\
    (0 < 1000 -> 2 ^ (b - 1) <= 1000 < 2 ^ b).
Proof.
  apply get_bit_length_correct; [lia | simpl; lia].
Defined.

(** X2.  On a negative argument [get_bit_length] fails its assertion and
    [get_whole_sqrt] raises [ValueError].  [is_perfect_square] passes the
    error on only when the last hexadecimal digit gets through its filter;
    otherwise it returns [False] without looking further. *)
Theorem negative_argument_errors (fuel : nat) (n : Z) :
  n < 0 ->
  get_bit_length fuel n = Raise AssertionError /\
  get_whole_sqrt fuel n = Raise ValueError /\
  is_perfect_square fuel n =
    (if nibble_passes (Z.land n 15) then Raise ValueError else Ret (VBool false)).
Proof.
  intros Hn.
  assert (W : get_whole_sqrt fuel n = Raise ValueError).
  { unfold get_whole_sqrt. destruct (Z.ltb_spec n 0); [reflexivity | lia]. }
  split; [|split; [exact W|]].
  - unfold get_bit_length. destruct (Z.geb_spec n 0); [lia | reflexivity].
  - rewrite is_perfect_square_unfold, W. reflexivity.
Qed.

Lemma negative_argument_errors_witness :
  (get_bit_length 5 (-16) = Raise AssertionError /\
   get_whole_sqrt 5 (-16) = Raise ValueError /\
   is_perfect_square 5 (-16) =
     (if nibble_passes (Z.land (-16) 15) then Raise ValueError else Ret (VBool false))) /\
  (get_bit_length 5 (-1) = Raise AssertionError /\
   get_whole_sqrt 5 (-1) = Raise ValueError /\
   is_perfect_square 5 (-1) =
     (if nibble_passes (Z.land (-1) 15) then Raise ValueError else Ret (VBool false))).
Proof.
  split; apply negative_argument_errors; lia.
Defined.

(** X3.  For [n >= 0] the filter on the last hexadecimal digit never changes
    the answer: [is_perfect_square n] returns the root when the integer
    square root squares back to [n], and [False] otherwise. *)
Theorem is_perfect_square_decides (fuel : nat) (n : Z) :
  0 <= n -> Z.log2 n + 2 <= Z.of_nat fuel ->
  is_perfect_square fuel n =
  Ret (if Z.sqrt n * Z.sqrt n =? n then VInt (Z.sqrt n) else VBool false).
Proof.
  intros Hn Hf. rewrite is_perfect_square_spec by assumption.
  destruct (Z.eqb_spec (Z.sqrt n * Z.sqrt n) n) as [E|E].
  - rewrite <- E at 1. now rewrite square_nibble_passes.
  - now rewrite andb_false_r.
Qed.

Lemma is_perfect_square_decides_witness :
  is_perfect_square 20 19600 =
  Ret (if Z.sqrt 19600 * Z.sqrt 19600 =? 19600 then VInt (Z.sqrt 19600) else VBool false).
Proof.
  apply is_perfect_square_decides; [lia | simpl; lia].
Defined.

(** X4.  Whatever [is_perfect_square] returns is right, for every integer and
    any amount of fuel: an integer [t] is nonnegative with [t * t = n], and a
    boolean is [False] and then [n] is not a perfect square. *)
Theorem is_perfect_square_sound (fuel : nat) (n : Z) (v : pyval) :
  is_perfect_square fuel n = Ret v ->
  match v with
  | VInt t => 0 <= t /\ t * t = n
  | VBool b => b = false /\ forall t, t * t <> n
  end.
Proof.
  rewrite is_perfect_square_unfold.
  destruct (nibble_passes (Z.land n 15)) eqn:NP.
  - destruct (get_whole_sqrt fuel n) as [t| |] eqn:G; cbn [bind]; try discriminate.
    assert (Hn : 0 <= n).
    { destruct (Z.lt_ge_cases n 0) as [Neg|]; [|assumption].
      unfold get_whole_sqrt in G. destruct (Z.ltb_spec n 0); [discriminate | lia]. }
    pose proof (get_whole_sqrt_sound fuel n t Hn G) as ->.
    destruct (Z.eqb_spec (Z.sqrt n * Z.sqrt n) n) as [E|E]; intros H; injection H as <-.
    + split; [apply Z.sqrt_nonneg | exact E].
    + split; [reflexivity | now apply not_square_of_sqrt].
  - intros H. injection H as <-. split; [reflexivity|].
    intros t Ht. rewrite <- Ht, square_nibble_passes in NP. discriminate.
Qed.

Lemma is_perfect_square_sound_witness :
  match VInt 140 with
  | VInt t => 0 <= t /\ t * t = 19600
  | VBool b => b = false /\ forall t, t * t <> 19600
  end.
Proof.
  apply (is_perfect_square_sound 20 19600 (VInt 140)). reflexivity.
Defined.

(** ** Continued fractions of arbitrary integers *)

Lemma _contfrac_to_rational_gcd (frac : list Z) :
  Z.gcd (fst (_contfrac_to_rational frac)) (snd (_contfrac_to_rational frac)) = 1.
Proof.
  induction frac as [|a rest IH]; [reflexivity|].
  destruct rest as [|b rest'].
  - rewrite _contfrac_to_rational_single. apply Z.gcd_1_r.
  - rewrite _contfrac_to_rational_cons by discriminate.
    destruct (_contfrac_to_rational (b :: rest')) as [p q]. cbn [fst snd] in *.
    replace (a * p + q) with (q + a * p) by lia.
    rewrite Z.gcd_comm, Z.gcd_add_mult_diag_r. exact IH.
Qed.

Lemma expands_any_stop (fuel : nat) (x y : Z) :
  y <> 0 -> x mod y = 0 -> expands_any fuel x y.
Proof.
  intros Hy Hm pq. exists [].
  assert (E : x / y * y = x) by (pose proof (Z.div_mod x y Hy); lia).
  split.
  - rewrite app_nil_r.
    destruct fuel; simpl; destruct (Z.eqb_spec (x / y * y) x); congruence.
  - rewrite _contfrac_to_rational_single. lia.
Qed.

Lemma expands_any_step (fuel : nat) (x y : Z) :
  y <> 0 -> x mod y <> 0 -> expands_any fuel y (x mod y) -> expands_any (S fuel) x y.
Proof.
  intros Hy Hm IH pq.
  assert (E : x - x / y * y = x mod y) by (rewrite Z.mod_eq; lia).
  destruct (IH (pq ++ [y / (x mod y)])) as [tail [L V]].
  exists (y / (x mod y) :: tail). split.
  - cbn [_rational_to_contfrac_loop].
    destruct (Z.eqb_spec (x / y * y) x); [lia|].
    rewrite E. destruct (Z.eqb_spec (x mod y) 0); [lia|].
    rewrite L. now rewrite <- app_assoc.
  - rewrite _contfrac_to_rational_cons by discriminate.
    destruct (_contfrac_to_rational (y / (x mod y) :: tail)) as [p q].
    rewrite <- E in V. nia.
Qed.

Lemma expands_any_enough (fuel : nat) :
  forall x y : Z, y <> 0 -> Z.abs y <= Z.of_nat fuel -> expands_any fuel x y.
Proof.
  induction fuel as [|fuel IH]; intros x y Hy Hf; [lia|].
  destruct (Z.eq_dec (x mod y) 0) as [M|M]; [now apply expands_any_stop|].
  apply expands_any_step; try assumption.
  apply IH; [assumption|].
  destruct (Z.lt_ge_cases 0 y) as [P|P].
  - pose proof (Z.mod_pos_bound x y P). lia.
  - pose proof (Z.mod_neg_bound x y ltac:(lia)). lia.
Qed.

(** X5.  [_rational_to_contfrac x y] raises [ZeroDivisionError] when [y = 0]
    and at no other time: for every integer [x] and every [y <> 0], of either
    sign, the loop ends within [|y|] rounds with a non-empty list of quotients
    that evaluates to [(p, q)] with [p * y = q * x] and [gcd p q = 1]. *)
Theorem rational_to_contfrac_total (x y : Z) :
  (y = 0 -> forall fuel : nat,
      _rational_to_contfrac fuel x y = Raise ZeroDivisionError) /\
  (y <> 0 ->
   exists (frac : list Z) (p q : Z),
     (forall fuel : nat, Z.abs y <= Z.of_nat fuel ->
        _rational_to_contfrac fuel x y = Ret frac) /\
     frac <> [] /\
     _contfrac_to_rational frac = (p, q) /\
     p * y = q * x /\ Z.gcd p q = 1).
Proof.
  split.
  - intros -> fuel. reflexivity.
  - intros Hy.
    set (f0 := Z.to_nat (Z.abs y)).
    destruct (expands_any_enough f0 x y Hy ltac:(unfold f0; lia) [x / y]) as [tail [L V]].
    assert (R0 : _rational_to_contfrac f0 x y = Ret (x / y :: tail)).
    { unfold _rational_to_contfrac. destruct (Z.eqb_spec y 0); [contradiction | exact L]. }
    pose proof (_contfrac_to_rational_gcd (x / y :: tail)) as G.
    destruct (_contfrac_to_rational (x / y :: tail)) as [p q] eqn:E.
    exists (x / y :: tail), p, q.
    split; [|split; [discriminate | split; [exact E | split; [exact V | exact G]]]].
    intros fuel Hf. rewrite <- R0.
    apply _rational_to_contfrac_more_fuel; [unfold f0; lia|].
    rewrite R0. apply settled_Ret.
Qed.

Lemma rational_to_contfrac_total_witness :
  (forall fuel : nat, _rational_to_contfrac fuel 7 0 = Raise ZeroDivisionError) /\
  (exists (frac : list Z) (p q : Z),
     (forall fuel : nat, Z.abs (-12) <= Z.of_nat fuel ->
        _rational_to_contfrac fuel 34 (-12) = Ret frac) /\
     frac <> [] /\
     _contfrac_to_rational frac = (p, q) /\
     p * (-12) = q * 34 /\ Z.gcd p q = 1).
Proof.
  split.
  - apply (proj1 (rational_to_contfrac_total 7 0)). reflexivity.
  - apply (proj2 (rational_to_contfrac_total 34 (-12))). lia.
Defined.

(** X6.  [_contfrac_to_rational] returns a pair in lowest terms for every
    list of integers, and [(0, 1)] for the empty list. *)
Theorem contfrac_to_rational_lowest_terms (frac : list Z) :
  _contfrac_to_rational [] = (0, 1) /\
  exists p q : Z, _contfrac_to_rational frac = (p, q) /\ Z.gcd p q = 1.
Proof.
  split; [reflexivity|].
  pose proof (_contfrac_to_rational_gcd frac) as G.
  destruct (_contfrac_to_rational frac) as [p q]. now exists p, q.
Qed.

(** ** Shape of the quotients *)

Lemma _rational_to_contfrac_loop_shape (fuel : nat) :
  forall (x y : Z) (pq res : list Z),
    0 < y ->
    _rational_to_contfrac_loop fuel x y (x / y) pq = Ret res ->
    exists tail : list Z,
      res = pq ++ tail /\ regular_tail tail /\ (tail = [] -> x / y * y = x).
Proof.
  induction fuel as [|fuel IH]; intros x y pq res Hy H.
  - simpl in H. destruct (Z.eqb_spec (x / y * y) x); [|discriminate].
    injection H as <-. exists []. rewrite app_nil_r.
    split; [reflexivity|]. split; [|auto]. split; [constructor | congruence].
  - cbn [_rational_to_contfrac_loop] in H.
    destruct (Z.eqb_spec (x / y * y) x) as [E|E].
    + injection H as <-. exists []. rewrite app_nil_r.
      split; [reflexivity|]. split; [|auto]. split; [constructor | congruence].
    + assert (M : x - x / y * y = x mod y) by (rewrite Z.mod_eq; lia).
      rewrite M in H. pose proof (Z.mod_pos_bound x y Hy) as B.
      destruct (Z.eqb_spec (x mod y) 0); [discriminate|].
      set (r := x mod y) in *.
      destruct (IH y r _ res ltac:(lia) H) as [tail [R [[F Lt] Z0]]].
      assert (A1 : 1 <= y / r) by (apply Z.div_le_lower_bound; lia).
      exists (y / r :: tail). split; [now rewrite R, <- app_assoc|].
      split; [|discriminate]. split; [now constructor|]. intros _.
      destruct tail as [|b tail'].
      * cbn [last]. specialize (Z0 eq_refl). nia.
      * change (last (y / r :: b :: tail') 0) with (last (b :: tail') 0).
        apply Lt. discriminate.
Qed.

Lemma _rational_to_contfrac_regular (fuel : nat) (x y : Z) :
  0 < y -> 2 * Z.log2 y + 2 <= Z.of_nat fuel ->
  exists tail : list Z,
    _rational_to_contfrac fuel x y = Ret (x / y :: tail) /\ regular_tail tail.
Proof.
  intros Hy Hf. pose proof (Z.log2_nonneg y) as L.
  assert (X : expands fuel x y).
  { apply (expands_halving (Z.to_nat (Z.log2 y) + 1)); [|lia].
    split; [lia | apply log2_lt_pow2; lia]. }
  destruct (X [x / y]) as [tail [R _]].
  destruct (_rational_to_contfrac_loop_shape fuel x y [x / y] _ Hy R)
    as [tail' [E [F _]]].
  apply app_inv_head in E. subst tail'.
  exists tail. split; [|assumption].
  unfold _rational_to_contfrac. destruct (Z.eqb_spec y 0); [lia | exact R].
Qed.

(** X7.  For a positive divisor [y] and any integer [x] the quotients are
    [x / y] followed by quotients that are all at least 1, the last of them
    at least 2; the loop runs at most [2 * log2 y + 2] times. *)
Theorem rational_to_contfrac_shape (fuel : nat) (x y : Z) :
  0 < y -> 2 * Z.log2 y + 2 <= Z.of_nat fuel ->
  exists tail : list Z,
    _rational_to_contfrac fuel x y = Ret (x / y :: tail) /\
    Forall (fun a => 1 <= a) tail /\
    (tail <> [] -> 2 <= last tail 0).
Proof.
  intros Hy Hf.
  destruct (_rational_to_contfrac_regular fuel x y Hy Hf) as [tail [R [F Lt]]].
  exists tail. split; [exact R | split; assumption].
Qed.

Lemma rational_to_contfrac_shape_witness :
  exists tail : list Z,
    _rational_to_contfrac 40 (-17993) 90581 = Ret (-17993 / 90581 :: tail) /\
    Forall (fun a => 1 <= a) tail /\
    (tail <> [] -> 2 <= last tail 0).
Proof.
  apply rational_to_contfrac_shape; [lia | simpl; lia].
Defined.

(** ** Convergents *)

Lemma Forall_firstn_of {A : Type} (P : A -> Prop) (l : list A) (i : nat) :
  Forall P l -> Forall P (firstn i l).
Proof.
  intros F. revert i. induction F as [|a l Pa F IH]; intros [|i]; simpl;
    constructor; auto.
Qed.

Lemma _contfrac_to_rational_positive (l : list Z) :
  l <> [] -> Forall (fun a => 1 <= a) l ->
  1 <= fst (_contfrac_to_rational l) /\ 1 <= snd (_contfrac_to_rational l).
Proof.
  induction l as [|a rest IH]; intros Hne F; [congruence|].
  inversion F as [|a' l' Ha Fr]; subst.
  destruct rest as [|b rest'].
  - rewrite _contfrac_to_rational_single. simpl. lia.
  - rewrite _contfrac_to_rational_cons by discriminate.
    destruct (IH ltac:(discriminate) Fr) as [Hp Hq].
    destruct (_contfrac_to_rational (b :: rest')) as [p q]. cbn [fst snd] in *. nia.
Qed.

Lemma _contfrac_to_rational_prefix_sign (a0 : Z) (tail : list Z) (i : nat) :
  0 <= a0 -> Forall (fun a => 1 <= a) tail ->
  0 <= fst (_contfrac_to_rational (firstn i (a0 :: tail))) /\
  1 <= snd (_contfrac_to_rational (firstn i (a0 :: tail))).
Proof.
  intros H0 F. destruct i as [|i]; [simpl; lia|].
  rewrite firstn_cons.
  destruct (firstn i tail) as [|b l] eqn:E.
  - rewrite _contfrac_to_rational_single. simpl. lia.
  - rewrite _contfrac_to_rational_cons by discriminate.
    assert (Fp : Forall (fun a => 1 <= a) (b :: l))
      by (rewrite <- E; now apply Forall_firstn_of).
    destruct (_contfrac_to_rational_positive (b :: l) ltac:(discriminate) Fp) as [Hp Hq].
    destruct (_contfrac_to_rational (b :: l)) as [p q]. cbn [fst snd] in *. nia.
Qed.

Lemma _convergents_from_contfrac_in (frac : list Z) (c : Z * Z) :
  In c (_convergents_from_contfrac frac) ->
  exists i, (i < length frac)%nat /\ c = _contfrac_to_rational (firstn i frac).
Proof.
  unfold _convergents_from_contfrac. rewrite in_map_iff.
  intros [i [E I]]. apply in_seq in I. exists i. split; [lia | now symmetry].
Qed.

(** X8.  [_convergents_from_contfrac frac] has one entry for each
    [i < len(frac)]: the value of [frac[0:i]], in lowest terms.  Entry 0 is
    the value [(0, 1)] of the empty prefix, and an empty list of quotients
    has no convergents. *)
Theorem convergents_from_contfrac_entries (frac : list Z) (i : nat) :
  (i < length frac)%nat ->
  exists k d : Z,
    nth_error (_convergents_from_contfrac frac) i = Some (k, d) /\
    _contfrac_to_rational (firstn i frac) = (k, d) /\
    Z.gcd k d = 1 /\
    nth_error (_convergents_from_contfrac frac) 0 = Some (0, 1) /\
    _convergents_from_contfrac [] = [].
Proof.
  intros Hi.
  pose proof (_contfrac_to_rational_gcd (firstn i frac)) as G.
  pose proof (_convergents_from_contfrac_nth frac i Hi) as N.
  destruct (_contfrac_to_rational (firstn i frac)) as [k d]. cbn [fst snd] in G.
  exists k, d. split; [exact N|]. split; [reflexivity|]. split; [exact G|].
  split; [|reflexivity].
  rewrite _convergents_from_contfrac_nth by lia. reflexivity.
Qed.

Lemma convergents_from_contfrac_entries_witness :
  exists k d : Z,
    nth_error (_convergents_from_contfrac [0; 5; 29; 4]) 3 = Some (k, d) /\
    _contfrac_to_rational (firstn 3 [0; 5; 29; 4]) = (k, d) /\
    Z.gcd k d = 1 /\
    nth_error (_convergents_from_contfrac [0; 5; 29; 4]) 0 = Some (0, 1) /\
    _convergents_from_contfrac [] = [].
Proof.
  apply convergents_from_contfrac_entries. simpl. lia.
Defined.

(** ** The search *)

Lemma wiener_attack_loop_sound (fuel : nat) (e n d : Z) (convs : list (Z * Z)) :
  wiener_attack_loop fuel e n convs = Ret (Some d) ->
  exists k p q : Z,
    In (k, d) convs /\ k <> 0 /\
    p * q = n /\ q < p /\ e * d - 1 = k * ((p - 1) * (q - 1)).
Proof.
  induction convs as [|[k0 d0] rest IH]; intros H; [discriminate|].
  assert (Later : wiener_attack_loop fuel e n rest = Ret (Some d) ->
                  exists k p q : Z,
                    In (k, d) ((k0, d0) :: rest) /\ k <> 0 /\
                    p * q = n /\ q < p /\ e * d - 1 = k * ((p - 1) * (q - 1))).
  { intros R. destruct (IH R) as [k' [p [q [I T]]]].
    exists k', p, q. split; [now right | exact T]. }
  cbn [wiener_attack_loop] in H.
  destruct (Z.eqb_spec k0 0) as [K|K]; cbn [negb andb] in H; [auto|].
  destruct (Z.eqb_spec ((e * d0 - 1) mod k0) 0) as [M|M]; [|auto].
  set (phi := (e * d0 - 1) / k0) in *.
  set (s := n - phi + 1) in *.
  destruct (s * s - 4 * n >=? 0); [|auto].
  destruct (is_perfect_square fuel (s * s - 4 * n)) as [t| |] eqn:P;
    cbn [bind] in H; try discriminate.
  destruct (truthy t && ((s + int_of t) mod 2 =? 0)) eqn:C; [|auto].
  injection H as ->.
  apply andb_prop in C. destruct C as [T Ev].
  pose proof (is_perfect_square_sound _ _ _ P) as S.
  destruct t as [r|b]; [|destruct S as [-> _]; discriminate].
  destruct S as [R0 R2]. cbn [truthy int_of] in T, Ev.
  apply Z.eqb_eq in Ev.
  destruct (Z.eqb_spec r 0) as [|Rz]; [discriminate|].
  pose proof (Z.div_mod (s + r) 2 ltac:(lia)) as D2. rewrite Ev in D2.
  pose proof (Z.div_mod (e * d - 1) k0 K) as Dk. rewrite M in Dk. fold phi in Dk.
  set (p := (s + r) / 2) in *.
  exists k0, p, (p - r). split; [now left|]. split; [exact K|].
  assert (Hs : s = 2 * p - r) by lia.
  assert (Hn : n = p * (p - r)) by nia.
  split; [lia|]. split; [lia|].
  assert (Hphi : phi = (p - 1) * (p - r - 1)) by (unfold s in Hs; nia).
  rewrite <- Hphi. lia.
Qed.

(** X9.  Whenever [wiener_attack e n] returns an exponent [d], for any
    integers [e] and [n], the modulus factors as [n = p * q] with [q < p], and
    [e * d - 1 = k * (p - 1) * (q - 1)] for the numerator [k <> 0] of a
    convergent [(k, d)] that was tried: [d] is an inverse of [e] modulo
    [(p - 1) * (q - 1)]. *)
Theorem wiener_attack_sound (fuel : nat) (e n d : Z) :
  wiener_attack fuel e n = Ret (Some d) ->
  exists (frac : list Z) (k p q : Z),
    _rational_to_contfrac fuel e n = Ret frac /\
    In (k, d) (_convergents_from_contfrac frac) /\ k <> 0 /\
    p * q = n /\ q < p /\ e * d - 1 = k * ((p - 1) * (q - 1)).
Proof.
  unfold wiener_attack. intros H.
  destruct (_rational_to_contfrac fuel e n) as [frac| |]; cbn [bind] in H;
    try discriminate.
  destruct (wiener_attack_loop_sound _ _ _ _ _ H) as [k [p [q T]]].
  exists frac, k, p, q. split; [reflexivity | exact T].
Qed.

Lemma wiener_attack_sound_witness :
  exists (frac : list Z) (k p q : Z),
    _rational_to_contfrac 20 17993 90581 = Ret frac /\
    In (k, 5) (_convergents_from_contfrac frac) /\ k <> 0 /\
    p * q = 90581 /\ q < p /\ 17993 * 5 - 1 = k * ((p - 1) * (q - 1)).
Proof.
  apply wiener_attack_sound. vm_compute. reflexivity.
Defined.

(** X10.  For [e >= 0] and [n > 0], [wiener_attack e n] returns the
    denominator of the first convergent, in the order of the list, that the
    loop accepts: [k <> 0] divides [e * d - 1], the discriminant is a perfect
    square other than [0], and [s + t] is even.  It returns [None] when no
    convergent is accepted, and it never raises. *)
Theorem wiener_attack_first_accepted (e n : Z) :
  0 <= e -> 0 < n ->
  exists (frac : list Z) (bound : nat),
    forall fuel : nat, (bound <= fuel)%nat ->
      _rational_to_contfrac fuel e n = Ret frac /\
      wiener_attack fuel e n =
      Ret (option_map snd
             (find (accepted_convergent e n) (_convergents_from_contfrac frac))).
Proof.
  exact (wiener_attack_spec e n).
Qed.

Lemma wiener_attack_first_accepted_witness :
  exists (frac : list Z) (bound : nat),
    forall fuel : nat, (bound <= fuel)%nat ->
      _rational_to_contfrac fuel 5 9 = Ret frac /\
      wiener_attack fuel 5 9 =
      Ret (option_map snd
             (find (accepted_convergent 5 9) (_convergents_from_contfrac frac))).
Proof.
  apply wiener_attack_first_accepted; lia.
Defined.

(** X11.  For [e >= 0] and [n > 0] every convergent [(k, d)] that the search
    tries has [k >= 0] and [d >= 1]; so an exponent returned by
    [wiener_attack] is at least 1. *)
Theorem convergents_tried_signs (fuel : nat) (e n : Z) :
  0 <= e -> 0 < n -> 2 * Z.log2 n + 2 <= Z.of_nat fuel ->
  exists frac : list Z,
    _rational_to_contfrac fuel e n = Ret frac /\
    Forall (fun c => 0 <= fst c /\ 1 <= snd c) (_convergents_from_contfrac frac) /\
    forall d : Z, wiener_attack fuel e n = Ret (Some d) -> 1 <= d.
Proof.
  intros He Hn Hf.
  destruct (_rational_to_contfrac_regular fuel e n Hn Hf) as [tail [R [F _]]].
  assert (A0 : 0 <= e / n) by (apply Z.div_pos; lia).
  assert (S : Forall (fun c => 0 <= fst c /\ 1 <= snd c)
                     (_convergents_from_contfrac (e / n :: tail))).
  { apply Forall_forall. intros c I.
    destruct (_convergents_from_contfrac_in _ _ I) as [i [_ ->]].
    now apply _contfrac_to_rational_prefix_sign. }
  exists (e / n :: tail). split; [exact R|]. split; [exact S|].
  intros d H. unfold wiener_attack in H. rewrite R in H. cbn [bind] in H.
  destruct (wiener_attack_loop_sound _ _ _ _ _ H) as [k [p [q [I _]]]].
  rewrite Forall_forall in S. apply (S (k, d) I).
Qed.

Lemma convergents_tried_signs_witness :
  exists frac : list Z,
    _rational_to_contfrac 40 17993 90581 = Ret frac /\
    Forall (fun c => 0 <= fst c /\ 1 <= snd c) (_convergents_from_contfrac frac) /\
    forall d : Z, wiener_attack 40 17993 90581 = Ret (Some d) -> 1 <= d.
Proof.
  apply convergents_tried_signs; [lia | lia | simpl; lia].
Defined.

(** X12.  Degenerate keys: with [n = 0] the attack raises
    [ZeroDivisionError]; with [n <> 0] dividing [e] (for instance [e = 0] or
    [n = 1]) the only convergent tried is [(0, 1)] and the attack returns
    [None], whatever the fuel. *)
Theorem wiener_attack_degenerate (fuel : nat) (e n : Z) :
  (n = 0 -> wiener_attack fuel e n = Raise ZeroDivisionError) /\
  (n <> 0 -> e mod n = 0 ->
   _rational_to_contfrac fuel e n = Ret [e / n] /\
   _convergents_from_contfrac [e / n] = [(0, 1)] /\
   wiener_attack fuel e n = Ret None).
Proof.
  split.
  - intros ->. reflexivity.
  - intros Hn Hm.
    assert (E : e / n * n = e) by (pose proof (Z.div_mod e n Hn); lia).
    assert (R : _rational_to_contfrac fuel e n = Ret [e / n]).
    { unfold _rational_to_contfrac. destruct (Z.eqb_spec n 0); [contradiction|].
      destruct fuel; simpl; destruct (Z.eqb_spec (e / n * n) e); congruence. }
    split; [exact R|]. split; [reflexivity|].
    unfold wiener_attack. rewrite R. reflexivity.
Qed.

Lemma wiener_attack_degenerate_witness :
  wiener_attack 3 17 0 = Raise ZeroDivisionError /\
  (_rational_to_contfrac 3 21 7 = Ret [21 / 7] /\
   _convergents_from_contfrac [21 / 7] = [(0, 1)] /\
   wiener_attack 3 21 7 = Ret None).
Proof.
  split.
  - apply (proj1 (wiener_attack_degenerate 3 17 0)). reflexivity.
  - apply (proj2 (wiener_attack_degenerate 3 21 7)); [lia | reflexivity].
Defined.

(** ** Padding *)

Lemma has_zero_byte_false (l : list byte) :
  has_zero_byte l = false -> forall i, nth_error l i <> Some x00.
Proof.
  intros H i E. assert (T : has_zero_byte l = true) by (apply has_zero_byte_true; now exists i).
  congruence.
Qed.

Lemma first_zero_at_app (pad msg : list byte) :
  Forall (fun b => b <> x00) pad ->
  first_zero_at (pad ++ x00 :: msg) (length pad).
Proof.
  intros F. induction F as [|b pad Hb F IH].
  - split; [reflexivity | intros j Hj; simpl in Hj; lia].
  - destruct IH as [I1 I2]. split; [exact I1|].
    intros [|j] Hj; simpl in *; [congruence | apply I2; lia].
Qed.

Lemma skipn_past_separator (pad msg : list byte) :
  skipn (S (length pad)) (pad ++ x00 :: msg) = msg.
Proof.
  induction pad as [|b pad IH]; [reflexivity | exact IH].
Qed.

(** X13.  The validator raises [IndexError] exactly on blocks of fewer than
    two bytes; the extractor never raises, and returns a block of at most two
    bytes unchanged. *)
Theorem short_block_behaviour (block : list byte) :
  (is_valid_pkcs_1_5_signature block = Raise IndexError <->
   (length block < 2)%nat) /\
  ((length block <= 2)%nat -> extract_message_pkcs_1_5 block = block).
Proof.
  split.
  - destruct block as [|b0 [|b1 rest]]; simpl; try (split; [lia | reflexivity]);
      try (split; [intros _; lia | reflexivity]).
    unfold is_valid_pkcs_1_5_signature. cbn [nth_error].
    destruct (Byte.eqb b0 x00 && Byte.eqb b1 x02); split; (discriminate || lia).
  - intros H. destruct block as [|b0 [|b1 [|b2 rest]]]; simpl in H; try lia; reflexivity.
Qed.

Lemma short_block_behaviour_witness :
  (is_valid_pkcs_1_5_signature [x00] = Raise IndexError <->
   (length [x00] < 2)%nat) /\
  extract_message_pkcs_1_5 [x00; x00] = [x00; x00].
Proof.
  split.
  - apply (proj1 (short_block_behaviour [x00])).
  - apply (proj2 (short_block_behaviour [x00; x00])). simpl. lia.
Defined.

(** X14.  Round trip on a padded block: for padding bytes that are all
    non-zero and any message, the block [00 02 | padding | 00 | message] is
    accepted by the validator and the extractor returns exactly the message.
    The extractor does not look at the two header bytes: it returns the
    message whatever they are. *)
Theorem padded_block_round_trip (h0 h1 : byte) (pad msg : list byte) :
  Forall (fun b => b <> x00) pad ->
  is_valid_pkcs_1_5_signature (x00 :: x02 :: pad ++ x00 :: msg) = Ret true /\
  extract_message_pkcs_1_5 (x00 :: x02 :: pad ++ x00 :: msg) = msg /\
  extract_message_pkcs_1_5 (h0 :: h1 :: pad ++ x00 :: msg) = msg.
Proof.
  intros F. pose proof (first_zero_at_app pad msg F) as Z0.
  assert (X : forall a b, extract_message_pkcs_1_5 (a :: b :: pad ++ x00 :: msg) = msg).
  { intros a b. unfold extract_message_pkcs_1_5. cbn [skipn].
    rewrite (find_end_byte_pos_found _ (length pad)) by exact Z0.
    change (2 + 1 + length pad)%nat with (S (S (S (length pad)))).
    cbn [skipn]. apply skipn_past_separator. }
  split; [|split; apply X].
  unfold is_valid_pkcs_1_5_signature. cbn [nth_error skipn].
  change (Byte.eqb x00 x00 && Byte.eqb x02 x02) with true. cbn iota.
  f_equal. apply has_zero_byte_true. exists (length pad). apply Z0.
Qed.

Lemma padded_block_round_trip_witness :
  is_valid_pkcs_1_5_signature (x00 :: x02 :: [x05; xff] ++ x00 :: [x41; x00; x42]) = Ret true /\
  extract_message_pkcs_1_5 (x00 :: x02 :: [x05; xff] ++ x00 :: [x41; x00; x42]) = [x41; x00; x42] /\
  extract_message_pkcs_1_5 (x07 :: x09 :: [x05; xff] ++ x00 :: [x41; x00; x42]) = [x41; x00; x42].
Proof.
  apply padded_block_round_trip. repeat constructor; discriminate.
Defined.

(** X15.  The extractor only drops a prefix: its result is the block from
    some position [j] on, where [j] is [0] (nothing dropped) or at least [3]
    and within the block, and the result has [j] bytes fewer. *)
Theorem extract_message_is_suffix (block : list byte) :
  exists j : nat,
    (j = 0 \/ 3 <= j)%nat /\ (j <= length block)%nat /\
    extract_message_pkcs_1_5 block = skipn j block /\
    length (extract_message_pkcs_1_5 block) = (length block - j)%nat.
Proof.
  unfold extract_message_pkcs_1_5.
  destruct (has_zero_byte (skipn 2 block)) eqn:H.
  - destruct (has_zero_byte_first _ H) as [i Fi].
    pose proof (first_zero_at_bound _ _ Fi) as B. rewrite length_skipn in B.
    rewrite (find_end_byte_pos_found _ i) by exact Fi.
    exists (2 + 1 + i)%nat. split; [lia|]. split; [lia|]. split; [reflexivity|].
    apply length_skipn.
  - rewrite find_end_byte_pos_none by (now apply has_zero_byte_false).
    exists 0%nat. split; [lia|]. split; [lia|]. split; [reflexivity|].
    apply length_skipn.
Qed.

(** ** Completeness of the search over the convergents tried *)

Lemma accepted_convergent_of_key (e p q k d : Z) :
  q < p -> k <> 0 -> e * d - 1 = k * ((p - 1) * (q - 1)) ->
  accepted_convergent e (p * q) (k, d) = true.
Proof.
  intros Hpq Hk Hed.
  assert (Hdiv : (e * d - 1) / k = (p - 1) * (q - 1))
    by (rewrite Hed, Z.mul_comm; now apply Z.div_mul).
  assert (Hmod : (e * d - 1) mod k = 0)
    by (rewrite Hed, Z.mul_comm; now apply Z.mod_mul).
  assert (Hs : half_sum e (p * q) (k, d) = p + q)
    by (unfold half_sum; rewrite Hdiv; ring).
  assert (Hd : discriminant e (p * q) (k, d) = (p - q) * (p - q))
    by (unfold discriminant; rewrite Hs; ring).
  unfold accepted_convergent, valid_convergent. cbn [fst snd].
  rewrite Hs, Hd, Hmod, Z.sqrt_square by lia.
  replace (p + q + (p - q)) with (p * 2) by ring. rewrite Z.mod_mul by lia.
  destruct (Z.eqb_spec k 0); [contradiction|].
  destruct (Z.geb_spec ((p - q) * (p - q)) 0); [|nia].
  rewrite !Z.eqb_refl.
  destruct (Z.eqb_spec ((p - q) * (p - q)) 0); [nia | reflexivity].
Qed.

Lemma find_first_index {A : Type} (f : A -> bool) (l : list A) (x : A) :
  find f l = Some x ->
  exists j : nat,
    nth_error l j = Some x /\ f x = true /\
    forall (j' : nat) (c : A), (j' < j)%nat -> nth_error l j' = Some c -> f c = false.
Proof.
  induction l as [|a l IH]; simpl; [discriminate|].
  destruct (f a) eqn:Fa.
  - intros H. injection H as <-. exists 0%nat.
    split; [reflexivity|]. split; [exact Fa|]. intros j' c Hj. lia.
  - intros H. destruct (IH H) as [j [N [Fx Before]]]. exists (S j).
    split; [exact N|]. split; [exact Fx|].
    intros [|j'] c Hj E; simpl in E.
    + injection E as <-. exact Fa.
    + apply (Before j' c); [lia | exact E].
Qed.

(** X16.  If [n = p * q] with [q < p], [e * d - 1 = k * (p - 1) * (q - 1)]
    with [k <> 0], and [(k, d)] is the convergent at index [i] of the list
    tried, then the attack returns the denominator [d'] of the first accepted
    convergent of that list; it stands at an index [j <= i], and no
    convergent before it is accepted. *)
Theorem wiener_attack_finds_listed_exponent
    (fuel : nat) (e p q k d : Z) (frac : list Z) (i : nat) :
  q < p -> k <> 0 ->
  e * d - 1 = k * ((p - 1) * (q - 1)) ->
  _rational_to_contfrac fuel e (p * q) = Ret frac ->
  nth_error (_convergents_from_contfrac frac) i = Some (k, d) ->
  (search_fuel e (p * q) (_convergents_from_contfrac frac) <= fuel)%nat ->
  exists (j : nat) (k' d' : Z),
    (j <= i)%nat /\
    nth_error (_convergents_from_contfrac frac) j = Some (k', d') /\
    accepted_convergent e (p * q) (k', d') = true /\
    (forall (j' : nat) (c : Z * Z),
       (j' < j)%nat -> nth_error (_convergents_from_contfrac frac) j' = Some c ->
       accepted_convergent e (p * q) c = false) /\
    wiener_attack fuel e (p * q) = Ret (Some d').
Proof.
  intros Hpq Hk Hed R N Hf.
  pose proof (accepted_convergent_of_key e p q k d Hpq Hk Hed) as Acc.
  assert (W : wiener_attack fuel e (p * q) =
              Ret (option_map snd (find (accepted_convergent e (p * q))
                                        (_convergents_from_contfrac frac)))).
  { unfold wiener_attack. rewrite R. cbn [bind]. now apply wiener_attack_loop_spec. }
  destruct (find (accepted_convergent e (p * q)) (_convergents_from_contfrac frac))
    as [[k' d']|] eqn:F.
  - destruct (find_first_index _ _ _ F) as [j [Nj [Aj Before]]].
    exists j, k', d'. split.
    + destruct (Nat.le_gt_cases j i) as [L|G]; [exact L|].
      rewrite (Before i (k, d) G N) in Acc. discriminate.
    + split; [exact Nj|]. split; [exact Aj|]. split; [exact Before | exact W].
  - apply nth_error_In in N. pose proof (find_none _ _ F _ N) as C.
    rewrite Acc in C. discriminate.
Qed.

Lemma wiener_attack_finds_listed_exponent_witness :
  exists (j : nat) (k' d' : Z),
    (j <= 2)%nat /\
    nth_error (_convergents_from_contfrac [0; 5; 29; 4; 1; 3; 2; 4; 3]) j = Some (k', d') /\
    accepted_convergent 17993 (379 * 239) (k', d') = true /\
    (forall (j' : nat) (c : Z * Z),
       (j' < j)%nat ->
       nth_error (_convergents_from_contfrac [0; 5; 29; 4; 1; 3; 2; 4; 3]) j' = Some c ->
       accepted_convergent 17993 (379 * 239) c = false) /\
    wiener_attack 40 17993 (379 * 239) = Ret (Some d').
Proof.
  apply (wiener_attack_finds_listed_exponent 40 17993 379 239 1 5).
  - lia.
  - lia.
  - reflexivity.
  - vm_compute. reflexivity.
  - vm_compute. reflexivity.
  - vm_compute. lia.
Defined.

(** X17.  The value of the full list of quotients, which the list of
    convergents leaves out, would never be accepted by the search: for
    [e >= 0] and [n > 0] it fails the conditions of the loop. *)
Theorem full_sequence_never_accepted (fuel : nat) (e n : Z) :
  0 <= e -> 0 < n -> 2 * Z.log2 (Z.min e n) + 3 <= Z.of_nat fuel ->
  exists frac : list Z,
    _rational_to_contfrac fuel e n = Ret frac /\
    accepted_convergent e n (_contfrac_to_rational frac) = false.
Proof.
  intros He Hn Hf.
  destruct (_rational_to_contfrac_spec fuel e n He Hn Hf) as [frac [R [_ V]]].
  exists frac. split; [exact R|].
  unfold evaluates_to in V. destruct (_contfrac_to_rational frac) as [k d].
  destruct V as [V1 [_ V3]].
  destruct (accepted_convergent e n (k, d)) eqn:A; [exfalso | reflexivity].
  unfold accepted_convergent, valid_convergent, discriminant, half_sum in A.
  cbn [fst snd] in A.
  repeat (apply andb_prop in A; destruct A as [A ?]).
  destruct (Z.eqb_spec k 0) as [|K]; [discriminate|].
  match goal with H : ((e * d - 1) mod k =? 0) = true |- _ => apply Z.eqb_eq in H; rename H into M end.
  match goal with H : (_ >=? 0) = true |- _ => apply Z.geb_le in H; rename H into D0 end.
  match goal with H : negb (_ =? 0) = true |- _ =>
    apply negb_true_iff, Z.eqb_neq in H; rename H into D1 end.
  assert (Kp : 0 < k) by nia.
  pose proof (Z.div_mod (e * d - 1) k K) as DM. rewrite M in DM.
  remember ((e * d - 1) / k) as c eqn:Ec. clear Ec.
  assert (K1 : k * (n - c) = 1) by nia.
  assert (k = 1) by nia. subst k.
  assert (c = n - 1) by lia. subst c.
  replace (n - (n - 1) + 1) with 2 in D0, D1 by lia. lia.
Qed.

Lemma full_sequence_never_accepted_witness :
  exists frac : list Z,
    _rational_to_contfrac 40 17993 90581 = Ret frac /\
    accepted_convergent 17993 90581 (_contfrac_to_rational frac) = false.
Proof.
  apply full_sequence_never_accepted; [lia | lia | simpl; lia].
Defined.
